(** * thumper: lazy iterator combinators (src/index.js)

    A shallow embedding of the combinator library and the properties of
    its specification.

    - JavaScript values are the inductive type [value]; numbers are
      restricted to integers (plus [NaN], which matters for truthiness).
    - Iterator objects are state machines: a state and a [next] function
      returning an iterator result.  A generator function of the source
      becomes the step function of its body, with the local variables and
      the suspension point kept in the state.
    - Callbacks are closures with private captured variables ([Env]) that
      may also act on an ambient world [W]; every pull and every call is
      threaded through the monad [M], so that "nothing was pulled or
      called" reads "the world is unchanged".  Callbacks return; a
      callback that throws is outside the model.
    - Loops that JavaScript does not bound ([for ... of] over an arbitrary
      iterator) take fuel; running out of fuel is the outcome [OutOfFuel].
    - A generator asks its iterable for an iterator when its body first
      runs; the model asks when the generator is created, right after the
      guard.  The two differ only for an array that is modified in between.
    - [for ... of] closes its iterator ([return()]) on early exit; no
      function of the library looks at an iterator it has abandoned, and
      the model leaves the abandoned state as it is.
    - The message the engine gives to the [TypeError] of [in] on a
      primitive is the one of V8, on which the tests of the repository
      run. *)

From Stdlib Require Import ZArith String DecimalString Bool Arith Lia List.
Import ListNotations.

Set Implicit Arguments.

(** ** Values *)

#[warnings="-register-all"]
Inductive value : Type :=
| VUndefined
| VNull
| VBool (b : bool)
| VNum (n : Z)
| VNaN
| VStr (s : string)
| VArr (items : list value)
| VObj (id : positive).

(** [if (result)]: ToBoolean. *)
Definition truthy (v : value) : bool :=
  match v with
  | VUndefined | VNull | VNaN => false
  | VBool b => b
  | VNum n => negb (n =? 0)%Z
  | VStr s => negb (s =? "")%string
  | VArr _ | VObj _ => true
  end.

(** How a primitive is printed inside an error message. *)
Definition display (v : value) : string :=
  match v with
  | VUndefined => "undefined"
  | VNull => "null"
  | VBool true => "true"
  | VBool false => "false"
  | VNum n => NilZero.string_of_int (Z.to_int n)
  | VNaN => "NaN"
  | VStr s => s
  | VArr _ => "[object Array]"
  | VObj _ => "#<Object>"
  end.

(** ** Errors *)

Inductive js_class : Type := TypeError | NotIterator.

(** [class NotIterator extends TypeError]. *)
Definition extends (c d : js_class) : bool :=
  match c, d with
  | TypeError, TypeError => true
  | NotIterator, _ => true
  | TypeError, NotIterator => false
  end.

Record exn : Type := mkExn {
  exn_class : js_class;
  code : option Z;
  message : string
}.

Definition instanceof (e : exn) (c : js_class) : bool := extends (exn_class e) c.

Definition new_TypeError (msg : string) : exn := mkExn TypeError None msg.

(** [class NotIterator extends TypeError { code = 1; message = '...' }] *)
Definition new_NotIterator : exn :=
  mkExn NotIterator (Some 1%Z) "Value is not an iterator".

(** [s.indexOf(pat)] *)
Definition indexOf (s pat : string) : Z :=
  match String.index 0 pat s with
  | Some i => Z.of_nat i
  | None => (-1)%Z
  end.

(** ** Partial application

    [curry] is generic in the arguments and the result of the wrapped
    function: a function is its declared parameter count [fn.length] and
    its body on the list of actual arguments. *)

Section Curry.
Variables A R : Type.

Record JsFunction : Type := mkFunction {
  fn_length : nat;
  fn_apply : list A -> R
}.

(** What a call of a wrapper returns: the result of [fn], or the arrow
    function [(...other) => curry(fn)(...args, ...other)], which is
    determined by the [args] it captured. *)
Inductive curried : Type :=
| Result (r : R)
| Partial (args : list A).

(** [curry(fn)(...args)] *)
Definition curry (fn : JsFunction) (args : list A) : curried :=
  if fn_length fn <=? List.length args
  then Result (fn_apply fn args)
  else Partial args.

(** Calling the arrow function that captured [args] with [other]. *)
Definition call_partial (fn : JsFunction) (args other : list A) : curried :=
  curry fn (args ++ other).

(** Calling whatever a wrapper returned once more. *)
Definition call_curried (fn : JsFunction) (c : curried) (other : list A) : curried :=
  match c with
  | Result r => Result r
  | Partial args => call_partial fn args other
  end.
End Curry.

Arguments Result {A R} r.
Arguments Partial {A R} args.

(** ** The computation monad

    A computation runs in a world [W] and returns, throws, or runs out of
    fuel; [Throw] keeps the world in which the exception was raised. *)

Section Monad.
Context {W : Type}.

Inductive outcome (A : Type) : Type :=
| Return (a : A) (w : W)
| Throw (e : exn) (w : W)
| OutOfFuel.

Definition M (A : Type) : Type := W -> outcome A.

Definition ret {A} (a : A) : M A := fun w => Return a w.
Definition throw {A} (e : exn) : M A := fun w => Throw A e w.
Definition timeout {A} : M A := fun _ => OutOfFuel A.
Definition bind {A B} (c : M A) (k : A -> M B) : M B :=
  fun w =>
    match c w with
    | Return a w' => k a w'
    | Throw _ e w' => Throw B e w'
    | OutOfFuel _ => OutOfFuel B
    end.
End Monad.

Arguments outcome W A : clear implicits.
Arguments M W A : clear implicits.
Arguments Throw {W A} e w.
Arguments OutOfFuel {W A}.

Notation "x <- c ;; k" := (bind c (fun x => k))
  (at level 100, c at next level, right associativity).
Notation "' p <- c ;; k" := (bind c (fun x => let 'p := x in k))
  (at level 100, p pattern, c at next level, right associativity).
Notation "c ;; k" := (bind c (fun _ => k))
  (at level 100, right associativity).

(** How the body of a loop ends: it goes on to the next element with the
    variables it updates, or returns from the enclosing function. *)
Inductive flow (A R : Type) : Type :=
| Continue (a : A)
| Break (r : R).
Arguments Continue {A R} a.
Arguments Break {A R} r.

Section Thumper.
Context {W : Type}.
Local Abbreviation M := (M W).

(** ** Closures and iterators *)

Record Closure : Type := mkClosure {
  Env : Type;
  env : Env;
  body : Env -> list value -> W -> value * Env * W
}.

(** [f(...args)]: the value returned and the closure with its captured
    variables as the call left them. *)
Definition applied (f : Closure) (args : list value) (w : W) : value * Closure * W :=
  let '(v, e, w') := body f (env f) args w in
  (v, mkClosure e (body f), w').

Definition call (f : Closure) (args : list value) : M (value * Closure) :=
  fun w => let '(v, f', w') := applied f args w in Return (v, f') w'.

(** [v => v] *)
Definition identity : Closure :=
  mkClosure tt (fun e args w => (nth 0 args VUndefined, e, w)).

(** An iterator result is [Some v] for [{value: v, done: false}] and
    [None] for [{value: undefined, done: true}]. *)
Record Iterator : Type := mkIterator {
  St : Type;
  cur : St;
  next : St -> M (option value * St)
}.

(** What can stand where an iterable is expected: a plain value, or an
    object with a [Symbol.iterator] method (a generator object). *)
Inductive arg : Type :=
| Val (v : value)
| Gen (it : Iterator).

(** [Symbol.iterator in possible]: the engine throws on a primitive. *)
Definition has_Symbol_iterator (possible : arg) : exn + bool :=
  match possible with
  | Gen _ => inr true
  | Val (VArr _) => inr true
  | Val (VObj _) => inr false
  | Val v =>
    inl (new_TypeError
           ("Cannot use 'in' operator to search for 'Symbol(Symbol.iterator)' in "
            ++ display v))
  end.

Definition isIterator (possible : arg) : M bool :=
  match has_Symbol_iterator possible with
  | inr b => ret b
  | inl e =>
    if (indexOf (message e) "Cannot use 'in' operator to search for" >? -1)%Z
    then ret false
    else throw e
  end.

Definition ensureIterator (v : arg) : M unit :=
  b <- isIterator v ;;
  if negb b then throw new_NotIterator else ret tt.

(** Array iterator: the elements not yet visited. *)
Definition array_next (s : list value) : M (option value * list value) :=
  match s with
  | [] => ret (None, [])
  | x :: s' => ret (Some x, s')
  end.

Definition array_iterator (items : list value) : Iterator :=
  mkIterator items array_next.

(** [iter[Symbol.iterator]()], as [for ... of] and [yield*] call it. *)
Definition GetIterator (iter : arg) : M Iterator :=
  match iter with
  | Gen it => ret it
  | Val (VArr items) => ret (array_iterator items)
  | Val v => throw (new_TypeError (display v ++ " is not iterable"))
  end.

(** ** [for (const item of iter) body]

    [a] holds the variables the loop body updates. *)

Fixpoint for_of {S A R : Type} (nxt : S -> M (option value * S)) (fuel : nat)
    (loop_body : value -> A -> M (flow A R)) (s : S) (a : A) : M (flow A R * S) :=
  match fuel with
  | O => timeout
  | Datatypes.S fuel' =>
    ' (r, s') <- nxt s ;;
    match r with
    | None => ret (Continue a, s')
    | Some item =>
      f <- loop_body item a ;;
      match f with
      | Continue a' => for_of nxt fuel' loop_body s' a'
      | Break res => ret (Break res, s')
      end
    end
  end.

(** [[...iter]] *)
Definition spread {S : Type} (nxt : S -> M (option value * S)) (fuel : nat)
    (s : S) : M (list value * S) :=
  ' (f, s') <- for_of (R := Empty_set) nxt fuel
                 (fun item acc => ret (Continue (acc ++ [item]))) s [] ;;
  match f with
  | Continue acc => ret (acc, s')
  | Break r => match r with end
  end.

(** ** Generator bodies

    Each [function* it()] of the source is the step function of the
    generator object it returns.  [finished] is set once the body has
    run to its end: a finished generator answers [done] without running
    any code. *)

Section OneUpstream.
Variable S : Type.
Variable nxt : S -> M (option value * S).

(** State of a generator whose body is one loop over [upstream] that
    calls [callee]. *)
Record frame : Type := Frame {
  callee : Closure;
  upstream : S;
  finished : bool
}.

(** [map]: [for (const item of iter) { yield fn(item) }] *)
Definition map_next (s : frame) : M (option value * frame) :=
  if finished s then ret (None, s) else
  ' (r, u) <- nxt (upstream s) ;;
  match r with
  | None => ret (None, Frame (callee s) u true)
  | Some item =>
    ' (v, fn) <- call (callee s) [item] ;;
    ret (Some v, Frame fn u false)
  end.

(** [filter]: [if (pred(item)) { yield item }] *)
Fixpoint filter_loop (gas : nat) (pred : Closure) (u : S)
    : M (option value * frame) :=
  match gas with
  | O => timeout
  | Datatypes.S gas' =>
    ' (r, u') <- nxt u ;;
    match r with
    | None => ret (None, Frame pred u' true)
    | Some item =>
      ' (p, pred') <- call pred [item] ;;
      if truthy p then ret (Some item, Frame pred' u' false)
      else filter_loop gas' pred' u'
    end
  end.

Definition filter_next (gas : nat) (s : frame) : M (option value * frame) :=
  if finished s then ret (None, s)
  else filter_loop gas (callee s) (upstream s).

(** [filter_map]: [const result = predMap(item); if (result) { yield result }] *)
Fixpoint filter_map_loop (gas : nat) (predMap : Closure) (u : S)
    : M (option value * frame) :=
  match gas with
  | O => timeout
  | Datatypes.S gas' =>
    ' (r, u') <- nxt u ;;
    match r with
    | None => ret (None, Frame predMap u' true)
    | Some item =>
      ' (result, predMap') <- call predMap [item] ;;
      if truthy result then ret (Some result, Frame predMap' u' false)
      else filter_map_loop gas' predMap' u'
    end
  end.

Definition filter_map_next (gas : nat) (s : frame) : M (option value * frame) :=
  if finished s then ret (None, s)
  else filter_map_loop gas (callee s) (upstream s).

(** [takeWhile]: [if (pred(item)) { yield item } else { break }] *)
Definition takeWhile_next (s : frame) : M (option value * frame) :=
  if finished s then ret (None, s) else
  ' (r, u) <- nxt (upstream s) ;;
  match r with
  | None => ret (None, Frame (callee s) u true)
  | Some item =>
    ' (p, pred) <- call (callee s) [item] ;;
    if truthy p then ret (Some item, Frame pred u false)
    else ret (None, Frame pred u true)
  end.

(** [tap]: [fn(item); yield item] *)
Definition tap_next (s : frame) : M (option value * frame) :=
  if finished s then ret (None, s) else
  ' (r, u) <- nxt (upstream s) ;;
  match r with
  | None => ret (None, Frame (callee s) u true)
  | Some item =>
    ' (_, fn) <- call (callee s) [item] ;;
    ret (Some item, Frame fn u false)
  end.

(** [enumerate]: [let i = 0; ... yield [item, i]; i++] *)
Record enumerate_state : Type := EnumSt {
  enum_i : Z;
  enum_up : S;
  enum_finished : bool
}.

Definition enumerate_next (s : enumerate_state)
    : M (option value * enumerate_state) :=
  if enum_finished s then ret (None, s) else
  ' (r, u) <- nxt (enum_up s) ;;
  match r with
  | None => ret (None, EnumSt (enum_i s) u true)
  | Some item =>
    ret (Some (VArr [item; VNum (enum_i s)]), EnumSt (enum_i s + 1) u false)
  end.

(** [scan]: [let state = start; ... state = fn(state, item); yield state] *)
Record scan_state : Type := ScanSt {
  scan_fn : Closure;
  scan_acc : value;
  scan_up : S;
  scan_finished : bool
}.

Definition scan_next (s : scan_state) : M (option value * scan_state) :=
  if scan_finished s then ret (None, s) else
  ' (r, u) <- nxt (scan_up s) ;;
  match r with
  | None => ret (None, ScanSt (scan_fn s) (scan_acc s) u true)
  | Some item =>
    ' (state, fn) <- call (scan_fn s) [scan_acc s; item] ;;
    ret (Some state, ScanSt fn state u false)
  end.

(** [skipWhile]:
    [let done = false
     for (const item of iter) {
       const passed = pred(item)
       if (!done && passed) { continue } else if (!passed) { done = true }
       yield item }] *)
Record skipWhile_state : Type := SkipSt {
  sw_pred : Closure;
  sw_done : bool;
  sw_up : S;
  sw_finished : bool
}.

Fixpoint skipWhile_loop (gas : nat) (pred : Closure) (done : bool) (u : S)
    : M (option value * skipWhile_state) :=
  match gas with
  | O => timeout
  | Datatypes.S gas' =>
    ' (r, u') <- nxt u ;;
    match r with
    | None => ret (None, SkipSt pred done u' true)
    | Some item =>
      ' (passed, pred') <- call pred [item] ;;
      if negb done && truthy passed then skipWhile_loop gas' pred' done u'
      else
        let done' := if negb (truthy passed) then true else done in
        ret (Some item, SkipSt pred' done' u' false)
    end
  end.

Definition skipWhile_next (gas : nat) (s : skipWhile_state)
    : M (option value * skipWhile_state) :=
  if sw_finished s then ret (None, s)
  else skipWhile_loop gas (sw_pred s) (sw_done s) (sw_up s).

(** [flatMap]:
    [const result = fn(item)
     if (isIterator(result)) { yield* result } else { yield result }]
    The only iterable values are arrays; [flat_inner] holds what
    [yield*] has not delegated yet. *)
Record flatMap_state : Type := FlatSt {
  flat_fn : Closure;
  flat_inner : list value;
  flat_up : S;
  flat_finished : bool
}.

Fixpoint flatMap_loop (gas : nat) (fn : Closure) (u : S)
    : M (option value * flatMap_state) :=
  match gas with
  | O => timeout
  | Datatypes.S gas' =>
    ' (r, u') <- nxt u ;;
    match r with
    | None => ret (None, FlatSt fn [] u' true)
    | Some item =>
      ' (result, fn') <- call fn [item] ;;
      b <- isIterator (Val result) ;;
      if b then
        match result with
        | VArr (x :: inner) => ret (Some x, FlatSt fn' inner u' false)
        | VArr [] => flatMap_loop gas' fn' u'
        | _ => throw (new_TypeError (display result ++ " is not iterable"))
        end
      else ret (Some result, FlatSt fn' [] u' false)
    end
  end.

Definition flatMap_next (gas : nat) (s : flatMap_state)
    : M (option value * flatMap_state) :=
  if flat_finished s then ret (None, s) else
  match flat_inner s with
  | x :: inner => ret (Some x, FlatSt (flat_fn s) inner (flat_up s) false)
  | [] => flatMap_loop gas (flat_fn s) (flat_up s)
  end.
End OneUpstream.

Section TwoUpstreams.
Variables S1 S2 : Type.
Variable nxt1 : S1 -> M (option value * S1).
Variable nxt2 : S2 -> M (option value * S2).

(** [chain]: [yield* iter1; yield* iter2] *)
Inductive chain_pc : Type := ChainFirst | ChainSecond | ChainDone.

Definition chain_second (u1 : S1) (u2 : S2)
    : M (option value * (chain_pc * S1 * S2)) :=
  ' (r, u2') <- nxt2 u2 ;;
  match r with
  | Some v => ret (Some v, (ChainSecond, u1, u2'))
  | None => ret (None, (ChainDone, u1, u2'))
  end.

Definition chain_next (s : chain_pc * S1 * S2)
    : M (option value * (chain_pc * S1 * S2)) :=
  let '(pc, u1, u2) := s in
  match pc with
  | ChainFirst =>
    ' (r, u1') <- nxt1 u1 ;;
    match r with
    | Some v => ret (Some v, (ChainFirst, u1', u2))
    | None => chain_second u1' u2
    end
  | ChainSecond => chain_second u1 u2
  | ChainDone => ret (None, s)
  end.

(** [zip]:
    [for (const item of iter1) {
       yield item
       const item2 = ensuredIter.next()
       if (!item2.done) { yield item2.value } }]
    [nxt2] is the [next] of [ensuredIter].  The generator is suspended
    either at the head of the loop or right after [yield item]. *)
Inductive zip_pc : Type := ZipHead | ZipAfterItem | ZipDone.

Record zip_state : Type := ZipSt {
  zip_at : zip_pc;
  zip_iter1 : S1;
  zip_ensured : S2
}.

Definition zip_head (u1 : S1) (e : S2) : M (option value * zip_state) :=
  ' (r, u1') <- nxt1 u1 ;;
  match r with
  | None => ret (None, ZipSt ZipDone u1' e)
  | Some item => ret (Some item, ZipSt ZipAfterItem u1' e)
  end.

Definition zip_next (s : zip_state) : M (option value * zip_state) :=
  match zip_at s with
  | ZipHead => zip_head (zip_iter1 s) (zip_ensured s)
  | ZipAfterItem =>
    ' (item2, e') <- nxt2 (zip_ensured s) ;;
    match item2 with
    | Some v => ret (Some v, ZipSt ZipHead (zip_iter1 s) e')
    | None => zip_head (zip_iter1 s) e'
    end
  | ZipDone => ret (None, s)
  end.
End TwoUpstreams.

(** [cycle]:
    [let i = 0;
     while (true) { if (i > item.length - 1) { i = 0 }; yield item[i]; i++ }]
    The state is [i] as the next iteration of the loop finds it. *)
Definition cycle_next (item : list value) (i : Z) : M (option value * Z) :=
  let i := if (i >? Z.of_nat (List.length item) - 1)%Z then 0%Z else i in
  ret (Some (nth (Z.to_nat i) item VUndefined), (i + 1)%Z).

(** [empty]: [function* it() { }] *)
Definition empty_next (s : unit) : M (option value * unit) := ret (None, s).

(** [once]: [function* it() { yield item }]; the state tells whether the
    body has started. *)
Definition once_next (item : value) (started : bool) : M (option value * bool) :=
  if started then ret (None, true) else ret (Some item, true).

(** ** The combinators

    The exported functions with all their arguments supplied (what
    [curry] calls once it has [fn.length] arguments).  [gas] bounds the
    elements a generator may skip within one [next]; [fuel] bounds the
    iterations of an eager loop. *)

Definition map (fn : Closure) (iter : arg) : M Iterator :=
  ensureIterator iter ;;
  up <- GetIterator iter ;;
  ret (mkIterator (Frame fn (cur up) false) (map_next (next up))).

Definition filter (gas : nat) (pred : Closure) (iterator : arg) : M Iterator :=
  ensureIterator iterator ;;
  up <- GetIterator iterator ;;
  ret (mkIterator (Frame pred (cur up) false) (filter_next (next up) gas)).

Definition filter_map (gas : nat) (predMap : Closure) (iterator : arg) : M Iterator :=
  ensureIterator iterator ;;
  up <- GetIterator iterator ;;
  ret (mkIterator (Frame predMap (cur up) false) (filter_map_next (next up) gas)).

Definition all (fuel : nat) (pred : Closure) (iterator : arg) : M bool :=
  ensureIterator iterator ;;
  it <- GetIterator iterator ;;
  ' (f, _) <- for_of (next it) fuel
                (fun item pred =>
                   ' (p, pred') <- call pred [item] ;;
                   if negb (truthy p) then ret (Break false)
                   else ret (Continue pred'))
                (cur it) pred ;;
  match f with
  | Break b => ret b
  | Continue _ => ret true
  end.

Definition some (fuel : nat) (pred : Closure) (iterator : arg) : M bool :=
  ensureIterator iterator ;;
  it <- GetIterator iterator ;;
  ' (f, _) <- for_of (next it) fuel
                (fun item pred =>
                   ' (p, pred') <- call pred [item] ;;
                   if truthy p then ret (Break true)
                   else ret (Continue pred'))
                (cur it) pred ;;
  match f with
  | Break b => ret b
  | Continue _ => ret false
  end.

Definition chain (iter1 iter2 : arg) : M Iterator :=
  ensureIterator iter1 ;;
  ensureIterator iter2 ;;
  up1 <- GetIterator iter1 ;;
  up2 <- GetIterator iter2 ;;
  ret (mkIterator (ChainFirst, cur up1, cur up2) (chain_next (next up1) (next up2))).

Definition collect (fuel : nat) (iter : arg) : M (list value) :=
  ensureIterator iter ;;
  it <- GetIterator iter ;;
  ' (items, _) <- spread (next it) fuel (cur it) ;;
  ret items.

Definition count (fuel : nat) (iter : arg) : M Z :=
  ensureIterator iter ;;
  it <- GetIterator iter ;;
  ' (f, _) <- for_of (R := Empty_set) (next it) fuel
                (fun _ i => ret (Continue (i + 1)%Z))
                (cur it) 0%Z ;;
  match f with
  | Continue i => ret i
  | Break r => match r with end
  end.

Definition takeWhile (pred : Closure) (iter : arg) : M Iterator :=
  ensureIterator iter ;;
  up <- GetIterator iter ;;
  ret (mkIterator (Frame pred (cur up) false) (takeWhile_next (next up))).

(** [let count = 0; const pred = () => { count++; return count < num + 1 }] *)
Definition take_pred (num : Z) : Closure :=
  mkClosure 0%Z
    (fun count _ w =>
       let count := (count + 1)%Z in
       (VBool (count <? num + 1)%Z, count, w)).

Definition take (num : Z) (iter : arg) : M Iterator :=
  takeWhile (take_pred num) iter.

(** The predicate of [take] once its captured [count] has reached [c]. *)
Definition take_counter (num c : Z) : Closure :=
  mkClosure c (body (take_pred num)).

Definition cycle (fuel : nat) (iter : arg) : M Iterator :=
  item <- collect fuel iter ;;
  ret (mkIterator 0%Z (cycle_next item)).

Definition enumerate (iter : arg) : M Iterator :=
  ensureIterator iter ;;
  up <- GetIterator iter ;;
  ret (mkIterator (EnumSt 0%Z (cur up) false) (enumerate_next (next up))).

(** The body of the loop of [eq_by]; [next2] is the [next] of [iter2Iter]:
    [const { value, done } = iter2Iter.next()
     if (!pred(item, value) || done) { return false }] *)
Definition eq_by_body {S2 : Type} (next2 : S2 -> M (option value * S2))
    (item : value) (vars : Closure * S2) : M (flow (Closure * S2) bool) :=
  let '(pred, s2) := vars in
  ' (r, s2') <- next2 s2 ;;
  let value := match r with Some v => v | None => VUndefined end in
  let done := match r with Some _ => false | None => true end in
  ' (p, pred') <- call pred [item; value] ;;
  if negb (truthy p) || done then ret (Break false)
  else ret (Continue (pred', s2')).

Definition eq_by (fuel : nat) (pred : Closure) (iter1 iter2 : arg) : M bool :=
  ensureIterator iter1 ;;
  ensureIterator iter2 ;;
  iter1Iter <- map identity iter1 ;;
  iter2Iter <- map identity iter2 ;;
  ' (f, _) <- for_of (next iter1Iter) fuel (eq_by_body (next iter2Iter))
                (cur iter1Iter) (pred, cur iter2Iter) ;;
  match f with
  | Break b => ret b
  | Continue _ => ret true
  end.

Definition find (fuel : nat) (pred : Closure) (iter : arg) : M value :=
  ensureIterator iter ;;
  it <- GetIterator iter ;;
  ' (f, _) <- for_of (next it) fuel
                (fun item pred =>
                   ' (p, pred') <- call pred [item] ;;
                   if truthy p then ret (Break item)
                   else ret (Continue pred'))
                (cur it) pred ;;
  match f with
  | Break item => ret item
  | Continue _ => ret VUndefined
  end.

Definition find_map (fuel : nat) (predMap : Closure) (iter : arg) : M value :=
  ensureIterator iter ;;
  it <- GetIterator iter ;;
  ' (f, _) <- for_of (next it) fuel
                (fun item predMap =>
                   ' (result, predMap') <- call predMap [item] ;;
                   if truthy result then ret (Break result)
                   else ret (Continue predMap'))
                (cur it) predMap ;;
  match f with
  | Break result => ret result
  | Continue _ => ret VUndefined
  end.

Definition flatMap (gas : nat) (fn : Closure) (iter : arg) : M Iterator :=
  ensureIterator iter ;;
  up <- GetIterator iter ;;
  ret (mkIterator (FlatSt fn [] (cur up) false) (flatMap_next (next up) gas)).

Definition flatten (gas : nat) : arg -> M Iterator := flatMap gas identity.

Definition tap (fn : Closure) (iter : arg) : M Iterator :=
  ensureIterator iter ;;
  up <- GetIterator iter ;;
  ret (mkIterator (Frame fn (cur up) false) (tap_next (next up))).

Definition nth (fuel : nat) (index : Z) (iter : arg) : M value :=
  ensureIterator iter ;;
  it <- GetIterator iter ;;
  ' (f, _) <- for_of (next it) fuel
                (fun item i =>
                   if (i =? index)%Z then ret (Break item)
                   else ret (Continue (i + 1)%Z))
                (cur it) 0%Z ;;
  match f with
  | Break item => ret item
  | Continue _ => ret VUndefined
  end.

Definition fold (fuel : nat) (fn : Closure) (start : value) (iter : arg) : M value :=
  ensureIterator iter ;;
  it <- GetIterator iter ;;
  ' (f, _) <- for_of (R := Empty_set) (next it) fuel
                (fun item '(fn, state) =>
                   ' (state', fn') <- call fn [state; item] ;;
                   ret (Continue (fn', state')))
                (cur it) (fn, start) ;;
  match f with
  | Continue (_, state) => ret state
  | Break r => match r with end
  end.

Definition scan (fn : Closure) (start : value) (iter : arg) : M Iterator :=
  ensureIterator iter ;;
  up <- GetIterator iter ;;
  ret (mkIterator (ScanSt fn start (cur up) false) (scan_next (next up))).

Definition skipWhile (gas : nat) (pred : Closure) (iter : arg) : M Iterator :=
  ensureIterator iter ;;
  up <- GetIterator iter ;;
  ret (mkIterator (SkipSt pred false (cur up) false) (skipWhile_next (next up) gas)).

(** [let count = 0; const pred = () => { count++; return count <= num }] *)
Definition skip_pred (num : Z) : Closure :=
  mkClosure 0%Z
    (fun count _ w =>
       let count := (count + 1)%Z in
       (VBool (count <=? num)%Z, count, w)).

Definition skip (gas : nat) (num : Z) (iter : arg) : M Iterator :=
  skipWhile gas (skip_pred num) iter.

Definition zip (iter1 iter2 : arg) : M Iterator :=
  ensureIterator iter1 ;;
  ensureIterator iter2 ;;
  ensuredIter <- map identity iter2 ;;
  up1 <- GetIterator iter1 ;;
  ret (mkIterator (ZipSt ZipHead (cur up1) (cur ensuredIter))
                  (zip_next (next up1) (next ensuredIter))).

Definition empty : Iterator := mkIterator tt empty_next.

Definition once (item : value) : Iterator := mkIterator false (once_next item).

Definition repeat (fuel : nat) (v : value) : M Iterator :=
  cycle fuel (Gen (once v)).

(** ** The export table

    One constructor per exported combinator that takes an iterable,
    applied to all its arguments.  [eq] is [eq_by] applied to the
    callback [(a, b) => a === b], and its calls are those of [call_eq_by]
    with that callback. *)

Inductive invocation : Type :=
| call_all (pred : Closure) (iterator : arg)
| call_any (pred : Closure) (iterator : arg)
| call_some (pred : Closure) (iterator : arg)
| call_chain (iter1 iter2 : arg)
| call_collect (iter : arg)
| call_count (iter : arg)
| call_map (fn : Closure) (iter : arg)
| call_filter (pred : Closure) (iterator : arg)
| call_filter_map (predMap : Closure) (iterator : arg)
| call_take (num : Z) (iter : arg)
| call_takeWhile (pred : Closure) (iter : arg)
| call_cycle (iter : arg)
| call_enumerate (iter : arg)
| call_eq_by (pred : Closure) (iter1 iter2 : arg)
| call_find (pred : Closure) (iter : arg)
| call_find_map (predMap : Closure) (iter : arg)
| call_flatMap (fn : Closure) (iter : arg)
| call_flatten (iter : arg)
| call_tap (fn : Closure) (iter : arg)
| call_inspect (fn : Closure) (iter : arg)
| call_nth (index : Z) (iter : arg)
| call_fold (fn : Closure) (start : value) (iter : arg)
| call_scan (fn : Closure) (start : value) (iter : arg)
| call_skipWhile (pred : Closure) (iter : arg)
| call_skip (num : Z) (iter : arg)
| call_zip (iter1 iter2 : arg).

(** The arguments of a call that stand in an iterable position. *)
Definition sequence_arguments (c : invocation) : list arg :=
  match c with
  | call_all _ i | call_any _ i | call_some _ i | call_collect i | call_count i
  | call_map _ i | call_filter _ i | call_filter_map _ i | call_take _ i
  | call_takeWhile _ i | call_cycle i | call_enumerate i | call_find _ i
  | call_find_map _ i | call_flatMap _ i | call_flatten i | call_tap _ i
  | call_inspect _ i | call_nth _ i
  | call_fold _ _ i | call_scan _ _ i | call_skipWhile _ i | call_skip _ i => [i]
  | call_chain i1 i2 | call_eq_by _ i1 i2 | call_zip i1 i2 => [i1; i2]
  end.

(** What a call returns: a generator object or a plain value. *)
Inductive returned : Type :=
| RIter (it : Iterator)
| RVal (v : value).

Definition as_iter (c : M Iterator) : M returned := it <- c ;; ret (RIter it).
Definition as_bool (c : M bool) : M returned := b <- c ;; ret (RVal (VBool b)).
Definition as_val (c : M value) : M returned := v <- c ;; ret (RVal v).

Definition invoke (fuel : nat) (c : invocation) : M returned :=
  match c with
  | call_all pred i => as_bool (all fuel pred i)
  | call_any pred i => as_bool (some fuel pred i)
  | call_some pred i => as_bool (some fuel pred i)
  | call_chain i1 i2 => as_iter (chain i1 i2)
  | call_collect i => items <- collect fuel i ;; ret (RVal (VArr items))
  | call_count i => n <- count fuel i ;; ret (RVal (VNum n))
  | call_map fn i => as_iter (map fn i)
  | call_filter pred i => as_iter (filter fuel pred i)
  | call_filter_map predMap i => as_iter (filter_map fuel predMap i)
  | call_take num i => as_iter (take num i)
  | call_takeWhile pred i => as_iter (takeWhile pred i)
  | call_cycle i => as_iter (cycle fuel i)
  | call_enumerate i => as_iter (enumerate i)
  | call_eq_by pred i1 i2 => as_bool (eq_by fuel pred i1 i2)
  | call_find pred i => as_val (find fuel pred i)
  | call_find_map predMap i => as_val (find_map fuel predMap i)
  | call_flatMap fn i => as_iter (flatMap fuel fn i)
  | call_flatten i => as_iter (flatten fuel i)
  | call_tap fn i => as_iter (tap fn i)
  | call_inspect fn i => as_iter (tap fn i)
  | call_nth index i => as_val (nth fuel index i)
  | call_fold fn start i => as_val (fold fuel fn start i)
  | call_scan fn start i => as_iter (scan fn start i)
  | call_skipWhile pred i => as_iter (skipWhile fuel pred i)
  | call_skip num i => as_iter (skip fuel num i)
  | call_zip i1 i2 => as_iter (zip i1 i2)
  end.

(** Whether a value exposes [Symbol.iterator]. *)
Definition is_sequence (a : arg) : bool :=
  match a with
  | Gen _ => true
  | Val (VArr _) => true
  | Val _ => false
  end.

(** ** Reference semantics on lists

    What the specification says of each combinator, as functions on the
    list of elements of a finite sequence. *)

(** From state [s] the iterator produces exactly the elements [l] and then
    reports done in state [e], whatever the world is and without changing
    it. *)
Fixpoint emits {S : Type} (nxt : S -> M (option value * S)) (s : S)
    (l : list value) (e : S) : Prop :=
  match l with
  | [] => forall w, nxt s w = Return (None, e) w
  | x :: l' =>
    exists s', (forall w, nxt s w = Return (Some x, s') w) /\ emits nxt s' l' e
  end.

(** [iter] is a finite sequence with elements [l]: an array of these
    elements, or a generator object that emits them. *)
Definition yields (iter : arg) (l : list value) : Prop :=
  match iter with
  | Val (VArr items) => items = l
  | Val _ => False
  | Gen it => exists e, emits (next it) (cur it) l e
  end.

(** The results of calling [f] on each element in turn. *)
Fixpoint calls (f : Closure) (l : list value) (w : W) : list value * Closure * W :=
  match l with
  | [] => ([], f, w)
  | x :: l' =>
    let '(v, f', w') := applied f [x] w in
    let '(vs, f'', w'') := calls f' l' w' in
    (v :: vs, f'', w'')
  end.

(** filter_map: the mapped results that are truthy. *)
Definition filter_map_spec (predMap : Closure) (l : list value) (w : W) : list value :=
  List.filter truthy (fst (fst (calls predMap l w))).

(** skipWhile: drop the leading elements on which [pred] holds; the first
    element on which it fails and all that follow are kept. *)
Fixpoint skipWhile_spec (pred : Closure) (l : list value) (w : W) : list value :=
  match l with
  | [] => []
  | x :: l' =>
    let '(passed, pred', w') := applied pred [x] w in
    if truthy passed then skipWhile_spec pred' l' w' else x :: l'
  end.

(** eq_by: false on the first failed pair or when seq2 runs out first,
    true when seq1 runs out. *)
Fixpoint eq_by_spec (pred : Closure) (seq1 seq2 : list value) (w : W) : bool :=
  match seq1, seq2 with
  | [], _ => true
  | _ :: _, [] => false
  | x :: seq1', y :: seq2' =>
    let '(p, pred', w') := applied pred [x; y] w in
    if truthy p then eq_by_spec pred' seq1' seq2' w' else false
  end.

(** The closure and the world after [pred] has held on every pair of two
    lists of the same length. *)
Fixpoint pairs_pass (pred : Closure) (seq1 seq2 : list value) (w : W)
    : option (Closure * W) :=
  match seq1, seq2 with
  | [], [] => Some (pred, w)
  | x :: seq1', y :: seq2' =>
    let '(p, pred', w') := applied pred [x; y] w in
    if truthy p then pairs_pass pred' seq1' seq2' w' else None
  | _, _ => None
  end.

(** What [eq_by] returns for the way its loop ended. *)
Definition flow_result (A : Type) (f : flow A bool) : bool :=
  match f with
  | Break b => b
  | Continue _ => true
  end.

(** zip: each element of seq1, followed by its counterpart in seq2 while
    seq2 has one. *)
Fixpoint interleave (seq1 seq2 : list value) : list value :=
  match seq1 with
  | [] => []
  | a :: seq1' =>
    match seq2 with
    | [] => a :: interleave seq1' []
    | b :: seq2' => a :: b :: interleave seq1' seq2'
    end
  end.

End Thumper.

(** ** Closures and runs used in the examples *)

(** A callback without captured variables that leaves the world alone. *)
Definition pure_fn {W : Type} (f : list value -> value) : @Closure W :=
  mkClosure tt (fun e args w => (f args, e, w)).

(** The predicate of the [skipWhile] test:
    [let count = 0; const pred = () => { count++; return count <= 2 }] *)
Definition first_two_calls {W : Type} : @Closure W :=
  mkClosure 0%Z
    (fun count _ w => let count := (count + 1)%Z in (VBool (count <=? 2)%Z, count, w)).

(** A callback that records the arguments of each call in the world. *)
Definition logging (result : value) : @Closure (list (list value)) :=
  mkClosure tt (fun e args w => (result, e, w ++ [args])).

(** A generator object that counts in the world how often it is advanced. *)
Definition counting (items : list value) : @Iterator nat :=
  mkIterator items
    (fun s w => match s with
                | [] => Return (None, []) (Datatypes.S w)
                | x :: s' => Return (Some x, s') (Datatypes.S w)
                end).

(** The predicate of the filter_map test: [num => num === 2 ? 'haha' : false]. *)
Definition haha_on_two : @Closure unit :=
  pure_fn (fun args => match args with
                       | VNum 2 :: _ => VStr "haha"
                       | _ => VBool false
                       end).

(** A function of two declared parameters. *)
Definition add2 : JsFunction Z Z :=
  mkFunction 2 (fun args => (List.nth 0 args 0 + List.nth 1 args 0)%Z).

(** [collect(combinator(...))] *)
Definition collect_of {W : Type} (fuel : nat) (c : M W (@Iterator W)) : M W (list value) :=
  it <- c ;; collect fuel (Gen it).

Definition nums (l : list Z) : list value := List.map VNum l.
Definition arr {W : Type} (l : list Z) : @arg W := Val (VArr (nums l)).

(** ** Reference semantics of the other combinators *)

Section MoreReference.
Context {W : Type}.
Local Abbreviation M := (M W).

(** From state [s] and world [w] the iterator produces the elements [l]
    and then reports done, in state [e] and world [w']. *)
Fixpoint runs {S : Type} (nxt : S -> M (option value * S)) (s : S) (w : W)
    (l : list value) (e : S) (w' : W) : Prop :=
  match l with
  | [] => nxt s w = Return (None, e) w'
  | x :: l' =>
    exists s1 w1, nxt s w = Return (Some x, s1) w1 /\ runs nxt s1 w1 l' e w'
  end.

(** From state [s] the iterator produces the elements [l] and is then in
    state [s']; whether more elements follow is left open. *)
Fixpoint emits_prefix {S : Type} (nxt : S -> M (option value * S)) (s : S)
    (l : list value) (s' : S) : Prop :=
  match l with
  | [] => s = s'
  | x :: l' =>
    exists s1, (forall w, nxt s w = Return (Some x, s1) w) /\ emits_prefix nxt s1 l' s'
  end.

(** The body of a loop run on the elements of a list. *)
Fixpoint loop_list {A R : Type} (loop_body : value -> A -> M (flow A R))
    (l : list value) (a : A) : M (flow A R) :=
  match l with
  | [] => ret (Continue a)
  | x :: l' =>
    f <- loop_body x a ;;
    match f with
    | Continue a' => loop_list loop_body l' a'
    | Break r => ret (Break r)
    end
  end.

(** filter: the elements on which [pred] is truthy. *)
Fixpoint filter_spec (pred : @Closure W) (l : list value) (w : W) : list value :=
  match l with
  | [] => []
  | x :: l' =>
    let '(p, pred', w') := applied pred [x] w in
    if truthy p then x :: filter_spec pred' l' w' else filter_spec pred' l' w'
  end.

(** all: false at the first element on which [pred] is falsy, and [pred]
    is not called again; true at the end. *)
Fixpoint all_spec (pred : @Closure W) (l : list value) (w : W) : bool * W :=
  match l with
  | [] => (true, w)
  | x :: l' =>
    let '(p, pred', w') := applied pred [x] w in
    if truthy p then all_spec pred' l' w' else (false, w')
  end.

(** some: true at the first element on which [pred] is truthy. *)
Fixpoint some_spec (pred : @Closure W) (l : list value) (w : W) : bool * W :=
  match l with
  | [] => (false, w)
  | x :: l' =>
    let '(p, pred', w') := applied pred [x] w in
    if truthy p then (true, w') else some_spec pred' l' w'
  end.

(** find: the first element on which [pred] is truthy, or [undefined]. *)
Fixpoint find_spec (pred : @Closure W) (l : list value) (w : W) : value * W :=
  match l with
  | [] => (VUndefined, w)
  | x :: l' =>
    let '(p, pred', w') := applied pred [x] w in
    if truthy p then (x, w') else find_spec pred' l' w'
  end.

(** find_map: the first truthy result of [predMap], or [undefined]. *)
Fixpoint find_map_spec (predMap : @Closure W) (l : list value) (w : W) : value * W :=
  match l with
  | [] => (VUndefined, w)
  | x :: l' =>
    let '(result, predMap', w') := applied predMap [x] w in
    if truthy result then (result, w') else find_map_spec predMap' l' w'
  end.

(** takeWhile: the elements before the first one on which [pred] is falsy. *)
Fixpoint takeWhile_spec (pred : @Closure W) (l : list value) (w : W) : list value * W :=
  match l with
  | [] => ([], w)
  | x :: l' =>
    let '(p, pred', w') := applied pred [x] w in
    if truthy p
    then let '(rest, w'') := takeWhile_spec pred' l' w' in (x :: rest, w'')
    else ([], w')
  end.

(** fold: the state after [fn(state, item)] on each element. *)
Fixpoint fold_spec (fn : @Closure W) (state : value) (l : list value) (w : W) : value * W :=
  match l with
  | [] => (state, w)
  | x :: l' =>
    let '(state', fn', w') := applied fn [state; x] w in
    fold_spec fn' state' l' w'
  end.

(** scan: every state [fold] goes through after the seed. *)
Fixpoint scan_spec (fn : @Closure W) (state : value) (l : list value) (w : W)
    : list value * W :=
  match l with
  | [] => ([], w)
  | x :: l' =>
    let '(state', fn', w') := applied fn [state; x] w in
    let '(rest, w'') := scan_spec fn' state' l' w' in
    (state' :: rest, w'')
  end.


(** enumerate: each element paired with its index, counted from 0. *)
Definition enumerate_spec (l : list value) : list value :=
  List.map (fun p => VArr [fst p; VNum (Z.of_nat (snd p))])
           (List.combine l (List.seq 0 (length l))).

(** The predicate of [skip] once its captured [count] has reached [c]. *)
Definition skip_counter (num c : Z) : @Closure W :=
  mkClosure c (body (@skip_pred W num)).

(** cycle: the first [n] elements of the repetition of a buffer. *)
Definition cycle_elements (item : list value) (n : nat) : list value :=
  List.map (fun i => List.nth (i mod length item) item VUndefined) (List.seq 0 n).

(** The calls that return a generator whose body has not started. *)
Definition is_lazy (c : @invocation W) : bool :=
  match c with
  | call_chain _ _ | call_map _ _ | call_filter _ _ | call_filter_map _ _
  | call_take _ _ | call_takeWhile _ _ | call_enumerate _ | call_flatMap _ _
  | call_flatten _ | call_tap _ _ | call_inspect _ _ | call_scan _ _ _
  | call_skipWhile _ _ | call_skip _ _ | call_zip _ _ => true
  | _ => false
  end.

End MoreReference.

(** Calling a wrapper again and again, with one group of arguments each
    time. *)
Definition call_each {A R : Type} (fn : JsFunction A R) (c : curried A R)
    (groups : list (list A)) : curried A R :=
  List.fold_left (call_curried fn) groups c.

(** Callbacks of the tests: [num => num + 1], [num => num === 2],
    [(a, c) => a + c] and [x => [x, x]].  The two additions are given on
    numbers, which is what the runs below apply them to. *)
Definition plus_one (args : list value) : value :=
  match args with
  | VNum n :: _ => VNum (n + 1)
  | _ => VNaN
  end.

Definition is_two (args : list value) : value :=
  match args with
  | VNum 2 :: _ => VBool true
  | _ => VBool false
  end.

Definition add (args : list value) : value :=
  match args with
  | [VNum a; VNum c] => VNum (a + c)
  | _ => VNaN
  end.

Definition twice (args : list value) : value :=
  VArr [List.nth 0 args VUndefined; List.nth 0 args VUndefined].

(** * Properties *)

Unset Implicit Arguments.

Section GuardProperties.
Context {W : Type}.

Lemma ensureIterator_throws (a : @arg W) (w : W) :
  is_sequence a = false -> ensureIterator a w = Throw new_NotIterator w.
Proof.
  destruct a as [v | it]; [| discriminate].
  destruct v; intros Hseq; try discriminate; reflexivity.
Qed.

Lemma ensureIterator_passes (a : @arg W) (w : W) :
  is_sequence a = true -> ensureIterator a w = Return tt w.
Proof.
  destruct a as [v | it]; [| reflexivity].
  destruct v; intros Hseq; try discriminate; reflexivity.
Qed.

(** The capability check itself never throws on a modelled value. *)
Lemma isIterator_total (a : @arg W) (w : W) :
  isIterator a w = Return (is_sequence a) w.
Proof.
  destruct a as [v | it]; [| reflexivity].
  destruct v; reflexivity.
Qed.

(** A call with a non-iterable in an iterable position throws the guard's
    error before it does anything else. *)
Lemma invoke_guard (fuel : nat) (c : invocation) (w : W) :
  (exists a, In a (sequence_arguments c) /\ is_sequence a = false) ->
  invoke fuel c w = Throw new_NotIterator w.
Proof.
  intros [a [Hin Hseq]].
  destruct c; simpl in Hin;
    repeat match goal with
           | H : _ \/ _ |- _ => destruct H
           | H : False |- _ => destruct H
           end; subst;
    cbv [invoke as_iter as_bool as_val all some chain collect count map filter
         filter_map take takeWhile cycle enumerate eq_by find find_map flatMap flatten
         tap nth fold scan skipWhile skip zip bind];
    try (rewrite (ensureIterator_throws _ w Hseq); reflexivity);
    match goal with
    | |- context [ensureIterator ?i w] =>
      destruct (is_sequence i) eqn:Hi;
        [ rewrite (ensureIterator_passes _ w Hi),
                  (ensureIterator_throws _ w Hseq); reflexivity
        | rewrite (ensureIterator_throws _ w Hi); reflexivity ]
    end.
Qed.

(** A finite sequence passes the guard, and [for ... of] gets an iterator
    that emits its elements. *)
Lemma yields_iterator (a : @arg W) (l : list value) :
  yields a l ->
  exists it e,
    (forall w, ensureIterator a w = Return tt w)
    /\ (forall w, GetIterator a w = Return it w)
    /\ emits (next it) (cur it) l e.
Proof.
  destruct a as [v | it]; simpl.
  - destruct v; try contradiction. intros <-.
    exists (array_iterator items), []. repeat split.
    simpl. induction items as [|x items IH]; simpl.
    + reflexivity.
    + exists items. split; [reflexivity | exact IH].
  - intros [e He]. exists it, e. repeat split. exact He.
Qed.
End GuardProperties.

Section LoopProperties.
Context {W : Type}.
Implicit Types (w : W) (l : list value) (f pred predMap : @Closure W).

(** One iteration of [for ... of]. *)
Lemma for_of_step {S A R : Type} (nxt : S -> M W (option value * S)) (fuel : nat)
    (loop_body : value -> A -> M W (flow A R)) (s : S) (a : A) w :
  for_of nxt (Datatypes.S fuel) loop_body s a w =
  match nxt s w with
  | Return (None, s') w' => Return (Continue a, s') w'
  | Return (Some item, s') w' =>
    match loop_body item a w' with
    | Return (Continue a') w'' => for_of nxt fuel loop_body s' a' w''
    | Return (Break res) w'' => Return (Break res, s') w''
    | Throw e w'' => Throw e w''
    | OutOfFuel => OutOfFuel
    end
  | Throw e w' => Throw e w'
  | OutOfFuel => OutOfFuel
  end.
Proof.
  simpl. unfold bind. destruct (nxt s w) as [[[item|] s'] w'| |]; try reflexivity.
  destruct (loop_body item a w') as [[a'|res] w''| |]; reflexivity.
Qed.

(** The loop only looks at what [next] answers in the current state. *)
Lemma for_of_same_next {S A R : Type} (nxt : S -> M W (option value * S)) (fuel : nat)
    (loop_body : value -> A -> M W (flow A R)) (s1 s2 : S) (a : A) w1 w2 :
  nxt s1 w1 = nxt s2 w2 ->
  for_of nxt (Datatypes.S fuel) loop_body s1 a w1 =
  for_of nxt (Datatypes.S fuel) loop_body s2 a w2.
Proof. intros H. rewrite !for_of_step, H. reflexivity. Qed.

Lemma call_apply f (args : list value) w :
  call f args w = let '(v, f', w') := applied f args w in Return (v, f') w'.
Proof. reflexivity. Qed.

Lemma emits_array l : emits (W := W) array_next l l [].
Proof.
  induction l as [|x l IH]; simpl; [reflexivity |].
  exists l. split; [reflexivity | exact IH].
Qed.

Section Upstream.
Variable S : Type.
Variable nxt : S -> M W (option value * S).
Implicit Types (s e : S).

(** *** filter_map over a finite sequence *)

Lemma filter_map_loop_gas l : forall s e predMap w g1 g2,
  emits nxt s l e ->
  length l < g1 -> length l < g2 ->
  filter_map_loop nxt g1 predMap s w = filter_map_loop nxt g2 predMap s w.
Proof.
  induction l as [|x l IH]; intros s e predMap w g1 g2 Hem H1 H2;
    destruct g1 as [|g1]; destruct g2 as [|g2]; simpl in H1, H2; try lia;
    cbn [filter_map_loop]; unfold bind; simpl in Hem.
  - rewrite Hem. reflexivity.
  - destruct Hem as [s' [Hx Hl]]. rewrite Hx, call_apply.
    destruct (applied predMap [x] w) as [[v p'] w'].
    destruct (truthy v); [reflexivity | eapply IH; [exact Hl | lia | lia]].
Qed.

Lemma filter_map_next_nil predMap s e gas w :
  emits nxt s [] e ->
  0 < gas ->
  filter_map_next nxt gas (Frame predMap s false) w
  = Return (None, Frame predMap e true) w.
Proof.
  intros Hem Hgas. destruct gas; [lia |].
  unfold filter_map_next. cbn [finished callee upstream filter_map_loop].
  unfold bind. simpl in Hem. rewrite Hem. reflexivity.
Qed.

Lemma filter_map_next_cons predMap x l s s' e gas w :
  (forall w, nxt s w = Return (Some x, s') w) ->
  emits nxt s' l e ->
  length (x :: l) < gas ->
  filter_map_next nxt gas (Frame predMap s false) w
  = let '(v, p', w') := applied predMap [x] w in
    if truthy v then Return (Some v, Frame p' s' false) w'
    else filter_map_next nxt gas (Frame p' s' false) w'.
Proof.
  intros Hx Hl Hgas. destruct gas as [|gas]; [simpl in Hgas; lia |].
  assert (E : forall p' w',
             filter_map_next nxt (Datatypes.S gas) (Frame p' s' false) w'
             = filter_map_loop nxt gas p' s' w').
  { intros. unfold filter_map_next. cbn [finished callee upstream].
    eapply filter_map_loop_gas; [exact Hl | simpl in *; lia ..]. }
  destruct (applied predMap [x] w) as [[v p'] w'] eqn:Happ.
  rewrite E. unfold filter_map_next.
  cbn [finished callee upstream filter_map_loop]. unfold bind.
  rewrite Hx, call_apply, Happ.
  destruct (truthy v); reflexivity.
Qed.

Lemma filter_map_for_of l : forall s e predMap (acc : list value) fuel gas w,
  emits nxt s l e ->
  length l < gas -> length l < fuel ->
  for_of (R := Empty_set) (filter_map_next nxt gas) fuel
    (fun item acc => ret (Continue (acc ++ [item]))) (Frame predMap s false) acc w
  = let '(vs, p', w') := calls predMap l w in
    Return (Continue (acc ++ List.filter truthy vs), Frame p' e true) w'.
Proof.
  induction l as [|x l IH]; intros s e predMap acc fuel gas w Hem Hgas Hfuel;
    (destruct fuel as [|fuel]; [simpl in Hfuel; lia |]).
  - rewrite for_of_step, (filter_map_next_nil predMap s e gas w Hem) by lia.
    simpl. rewrite app_nil_r. reflexivity.
  - destruct Hem as [s' [Hx Hl]]. simpl calls.
    destruct (applied predMap [x] w) as [[v p'] w'] eqn:Happ.
    specialize (IH s' e p').
    destruct (truthy v) eqn:Hv.
    + rewrite for_of_step, (filter_map_next_cons predMap x l s s' e gas w Hx Hl), Happ, Hv
        by assumption.
      unfold ret at 1. rewrite IH by (simpl in *; auto; lia).
      destruct (calls p' l w') as [[vs p''] w''].
      simpl. rewrite Hv, <- app_assoc. reflexivity.
    + rewrite for_of_same_next
        with (s2 := Frame p' s' false) (w2 := w')
        by (rewrite (filter_map_next_cons predMap x l s s' e gas w Hx Hl), Happ, Hv
              by assumption;
            reflexivity).
      rewrite IH by (simpl in *; auto; lia).
      destruct (calls p' l w') as [[vs p''] w''].
      simpl. rewrite Hv. reflexivity.
Qed.

(** *** take over a finite sequence *)

Lemma take_for_of (num : Z) l : forall s e (c : Z) (acc : list value) fuel w,
  emits nxt s l e ->
  length l < fuel ->
  exists st,
    for_of (R := Empty_set) (takeWhile_next nxt) fuel
      (fun item acc => ret (Continue (acc ++ [item])))
      (Frame (take_counter num c) s false) acc w
    = Return (Continue (acc ++ firstn (Z.to_nat (num - c)) l), st) w.
Proof.
  induction l as [|x l IH]; intros s e c acc fuel w Hem Hfuel;
    (destruct fuel as [|fuel]; [simpl in Hfuel; lia |]);
    rewrite for_of_step; unfold takeWhile_next;
    cbn [finished callee upstream]; unfold bind; simpl in Hem.
  - rewrite Hem. simpl. rewrite firstn_nil, app_nil_r. eexists; reflexivity.
  - destruct Hem as [s1 [Hx Hl]]. rewrite Hx.
    cbn -[for_of Z.add Z.ltb firstn Z.to_nat Z.sub].
    destruct (Z.ltb_spec (c + 1) (num + 1)) as [Hlt | Hge].
    + cbn -[for_of Z.add firstn Z.to_nat Z.sub].
      destruct (IH s1 e (c + 1)%Z (acc ++ [x]) fuel w Hl) as [st Hs'];
        [simpl in *; lia |].
      exists st. etransitivity; [exact Hs' |].
      replace (Z.to_nat (num - c)) with (Datatypes.S (Z.to_nat (num - (c + 1)))) by lia.
      simpl. rewrite <- app_assoc. reflexivity.
    + cbn -[firstn Z.to_nat Z.sub Z.add].
      replace (Z.to_nat (num - c)) with 0 by lia.
      simpl. rewrite app_nil_r. eexists; reflexivity.
Qed.

(** *** skipWhile over a finite sequence *)

Lemma skipWhile_loop_gas l : forall s e pred (done : bool) w g1 g2,
  emits nxt s l e ->
  length l < g1 -> length l < g2 ->
  skipWhile_loop nxt g1 pred done s w = skipWhile_loop nxt g2 pred done s w.
Proof.
  induction l as [|x l IH]; intros s e pred done w g1 g2 Hem H1 H2;
    destruct g1 as [|g1]; destruct g2 as [|g2]; simpl in H1, H2; try lia;
    cbn [skipWhile_loop]; unfold bind; simpl in Hem.
  - rewrite Hem. reflexivity.
  - destruct Hem as [s' [Hx Hl]]. rewrite Hx, call_apply.
    destruct (applied pred [x] w) as [[v p'] w'].
    destruct (negb done && truthy v); [eapply IH; [exact Hl | lia | lia] | reflexivity].
Qed.

Lemma skipWhile_next_nil pred (done : bool) s e gas w :
  emits nxt s [] e ->
  0 < gas ->
  skipWhile_next nxt gas (SkipSt pred done s false) w
  = Return (None, SkipSt pred done e true) w.
Proof.
  intros Hem Hgas. destruct gas; [lia |].
  unfold skipWhile_next. cbn [sw_finished sw_pred sw_done sw_up skipWhile_loop].
  unfold bind. simpl in Hem. rewrite Hem. reflexivity.
Qed.

Lemma skipWhile_next_cons pred (done : bool) x l s s' e gas w :
  (forall w, nxt s w = Return (Some x, s') w) ->
  emits nxt s' l e ->
  length (x :: l) < gas ->
  skipWhile_next nxt gas (SkipSt pred done s false) w
  = let '(passed, p', w') := applied pred [x] w in
    if negb done && truthy passed
    then skipWhile_next nxt gas (SkipSt p' done s' false) w'
    else Return (Some x, SkipSt p' (if negb (truthy passed) then true else done) s' false) w'.
Proof.
  intros Hx Hl Hgas. destruct gas as [|gas]; [simpl in Hgas; lia |].
  assert (E : forall p' w',
             skipWhile_next nxt (Datatypes.S gas) (SkipSt p' done s' false) w'
             = skipWhile_loop nxt gas p' done s' w').
  { intros. unfold skipWhile_next. cbn [sw_finished sw_pred sw_done sw_up].
    eapply skipWhile_loop_gas; [exact Hl | simpl in *; lia ..]. }
  destruct (applied pred [x] w) as [[v p'] w'] eqn:Happ.
  rewrite E. unfold skipWhile_next.
  cbn [sw_finished sw_pred sw_done sw_up skipWhile_loop]. unfold bind.
  rewrite Hx, call_apply, Happ.
  destruct (negb done && truthy v); reflexivity.
Qed.

(** Once [done] is set every element is yielded, and [pred] is still
    called on each of them. *)
Lemma skipWhile_for_of_done l : forall s e pred (acc : list value) fuel gas w,
  emits nxt s l e ->
  length l < gas -> length l < fuel ->
  for_of (R := Empty_set) (skipWhile_next nxt gas) fuel
    (fun item acc => ret (Continue (acc ++ [item]))) (SkipSt pred true s false) acc w
  = let '(_, p', w') := calls pred l w in
    Return (Continue (acc ++ l), SkipSt p' true e true) w'.
Proof.
  induction l as [|x l IH]; intros s e pred acc fuel gas w Hem Hgas Hfuel;
    (destruct fuel as [|fuel]; [simpl in Hfuel; lia |]).
  - rewrite for_of_step, (skipWhile_next_nil pred true s e gas w Hem) by lia.
    simpl. rewrite app_nil_r. reflexivity.
  - destruct Hem as [s' [Hx Hl]]. simpl calls.
    destruct (applied pred [x] w) as [[v p'] w'] eqn:Happ.
    rewrite for_of_step, (skipWhile_next_cons pred true x l s s' e gas w Hx Hl), Happ
      by assumption.
    cbn [negb andb]. unfold ret at 1.
    replace (if negb (truthy v) then true else true) with true
      by (destruct (truthy v); reflexivity).
    rewrite (IH s' e) by (simpl in *; auto; lia).
    destruct (calls p' l w') as [[vs p''] w''].
    rewrite <- app_assoc. reflexivity.
Qed.

Lemma skipWhile_for_of l : forall s e pred (acc : list value) fuel gas w,
  emits nxt s l e ->
  length l < gas -> length l < fuel ->
  exists st,
    for_of (R := Empty_set) (skipWhile_next nxt gas) fuel
      (fun item acc => ret (Continue (acc ++ [item]))) (SkipSt pred false s false) acc w
    = Return (Continue (acc ++ skipWhile_spec pred l w), st) (snd (calls pred l w)).
Proof.
  induction l as [|x l IH]; intros s e pred acc fuel gas w Hem Hgas Hfuel;
    (destruct fuel as [|fuel]; [simpl in Hfuel; lia |]).
  - rewrite for_of_step, (skipWhile_next_nil pred false s e gas w Hem) by lia.
    simpl. rewrite app_nil_r. eexists; reflexivity.
  - destruct Hem as [s1 [Hx Hl]]. simpl calls. simpl skipWhile_spec.
    destruct (applied pred [x] w) as [[v p'] w'] eqn:Happ.
    destruct (truthy v) eqn:Hv.
    + rewrite for_of_same_next
        with (s2 := SkipSt p' false s1 false) (w2 := w')
        by (rewrite (skipWhile_next_cons pred false x l s s1 e gas w Hx Hl), Happ, Hv
              by assumption; reflexivity).
      destruct (IH s1 e p' acc (Datatypes.S fuel) gas w' Hl) as [st Hs'];
        [simpl in *; lia ..|].
      exists st. rewrite Hs'.
      destruct (calls p' l w') as [[vs p''] w'']. reflexivity.
    + rewrite for_of_step, (skipWhile_next_cons pred false x l s s1 e gas w Hx Hl), Happ, Hv
        by assumption.
      cbn [negb andb]. unfold ret at 1.
      rewrite (skipWhile_for_of_done l s1 e) by (simpl in *; auto; lia).
      destruct (calls p' l w') as [[vs p''] w''].
      rewrite <- app_assoc. eexists; reflexivity.
Qed.
End Upstream.

Lemma interleave_nil_r l : interleave l [] = l.
Proof. induction l as [|a l IH]; simpl; [| rewrite IH]; reflexivity. Qed.

Section TwoUpstreams.
Variables S1 S2 : Type.
Variable nxt1 : S1 -> M W (option value * S1).
Variable nxt2 : S2 -> M W (option value * S2).

(** *** zip over two finite sequences

    [ensuredIter] is [map(v => v, iter2)]: a frame over the iterator of
    [iter2], finished once that iterator has answered done. *)

Lemma zip_for_of_finished l1 : forall s1 e1 s2 (acc : list value) fuel w,
  emits nxt1 s1 l1 e1 ->
  length l1 < fuel ->
  for_of (R := Empty_set) (zip_next nxt1 (map_next nxt2)) fuel
    (fun item acc => ret (Continue (acc ++ [item])))
    (ZipSt ZipHead s1 (Frame identity s2 true)) acc w
  = Return (Continue (acc ++ l1), ZipSt ZipDone e1 (Frame identity s2 true)) w.
Proof.
  induction l1 as [|a l1 IH]; intros s1 e1 s2 acc fuel w Hem Hfuel;
    (destruct fuel as [|fuel]; [simpl in Hfuel; lia |]);
    rewrite for_of_step; unfold zip_next at 1; cbn [zip_at zip_iter1 zip_ensured];
    unfold zip_head, bind; simpl in Hem.
  - rewrite Hem. simpl. rewrite app_nil_r. reflexivity.
  - destruct Hem as [s1' [Ha Hl]]. rewrite Ha. unfold ret at 1 2.
    destruct fuel as [|fuel]; [simpl in Hfuel; lia |].
    rewrite for_of_same_next
      with (s2 := ZipSt ZipHead s1' (Frame identity s2 true)) (w2 := w)
      by reflexivity.
    rewrite (IH s1' e1) by (simpl in *; auto; lia).
    rewrite <- app_assoc. reflexivity.
Qed.

Lemma zip_for_of l1 : forall l2 s1 e1 s2 e2 (acc : list value) fuel w,
  emits nxt1 s1 l1 e1 ->
  emits nxt2 s2 l2 e2 ->
  2 * length l1 < fuel ->
  exists s2',
    for_of (R := Empty_set) (zip_next nxt1 (map_next nxt2)) fuel
      (fun item acc => ret (Continue (acc ++ [item])))
      (ZipSt ZipHead s1 (Frame identity s2 false)) acc w
    = Return (Continue (acc ++ interleave l1 l2),
              ZipSt ZipDone e1 (Frame identity s2' (length l2 <? length l1))) w
    /\ if length l2 <? length l1 then s2' = e2
       else emits nxt2 s2' (skipn (length l1) l2) e2.
Proof.
  induction l1 as [|a l1 IH]; intros l2 s1 e1 s2 e2 acc fuel w Hem1 Hem2 Hfuel;
    (destruct fuel as [|fuel]; [simpl in Hfuel; lia |]);
    rewrite for_of_step; unfold zip_next at 1; cbn [zip_at zip_iter1 zip_ensured];
    unfold zip_head, bind; simpl in Hem1.
  - rewrite Hem1. exists s2. simpl. rewrite app_nil_r. split; [reflexivity | exact Hem2].
  - destruct Hem1 as [s1' [Ha Hl1]]. rewrite Ha. unfold ret at 1 2.
    destruct fuel as [|fuel]; [simpl in Hfuel; lia |].
    destruct l2 as [|b l2]; simpl in Hem2.
    + exists e2.
      rewrite for_of_same_next
        with (s2 := ZipSt ZipHead s1' (Frame identity e2 true)) (w2 := w)
        by (unfold zip_next, map_next, bind; cbn [zip_at zip_iter1 zip_ensured
              finished callee upstream]; rewrite Hem2; reflexivity).
      rewrite (zip_for_of_finished l1 s1' e1) by (simpl in *; auto; lia).
      cbn [interleave]. rewrite interleave_nil_r, <- app_assoc.
      split; reflexivity.
    + destruct Hem2 as [s2a [Hb Hl2]].
      rewrite for_of_step. unfold zip_next at 1, map_next, bind.
      cbn [zip_at zip_iter1 zip_ensured finished callee upstream].
      rewrite Hb. cbn -[for_of zip_next].
      change (mkClosure tt (body identity)) with (@identity W).
      destruct (IH l2 s1' e1 s2a e2 ((acc ++ [a]) ++ [b]) fuel w Hl1 Hl2)
        as [s2' [Hrun Hrest]]; [simpl in *; lia |].
      exists s2'. split; [| exact Hrest].
      etransitivity; [exact Hrun |].
      cbn [interleave]. rewrite <- !app_assoc. reflexivity.
Qed.

(** *** eq_by on two finite sequences *)

Lemma call_identity (v : value) w : call identity [v] w = Return (v, identity) w.
Proof. reflexivity. Qed.

(** The loop of [eq_by] in front of the next elements [x] of seq1 and [r]
    of seq2. *)
Lemma eq_by_loop_step (x : value) (r : option value) s1 s1' s2 s2' pred fuel w :
  (forall w, nxt1 s1 w = Return (Some x, s1') w) ->
  (forall w, nxt2 s2 w = Return (r, s2') w) ->
  for_of (map_next nxt1) (Datatypes.S fuel) (eq_by_body (map_next nxt2))
    (Frame identity s1 false) (pred, Frame identity s2 false) w
  = match r with
    | None =>
      Return (Break false, Frame identity s1' false)
             (snd (applied pred [x; VUndefined] w))
    | Some y =>
      let '(p, pred', w') := applied pred [x; y] w in
      if truthy p
      then for_of (map_next nxt1) fuel (eq_by_body (map_next nxt2))
             (Frame identity s1' false) (pred', Frame identity s2' false) w'
      else Return (Break false, Frame identity s1' false) w'
    end.
Proof.
  intros Hx Hr.
  rewrite for_of_step. unfold map_next at 1. cbn [finished callee upstream].
  unfold bind at 1. rewrite Hx. cbn -[for_of eq_by_body call].
  unfold bind at 1. rewrite call_identity. cbn -[for_of eq_by_body call].
  unfold eq_by_body at 1, map_next at 1. cbn [finished callee upstream].
  unfold bind at 1 2. rewrite Hr.
  destruct r as [y |]; cbn -[for_of eq_by_body call].
  - unfold bind at 1 2. rewrite call_identity. cbn -[for_of eq_by_body call].
    rewrite call_apply.
    destruct (applied pred [x; y] w) as [[p pred'] w'].
    rewrite orb_false_r.
    destruct (truthy p); reflexivity.
  - unfold bind at 1. rewrite call_apply.
    destruct (applied pred [x; VUndefined] w) as [[p pred'] w'].
    rewrite orb_true_r. reflexivity.
Qed.

Lemma eq_by_loop_end s1 e1 vars fuel w :
  emits nxt1 s1 [] e1 ->
  for_of (map_next nxt1) (Datatypes.S fuel) (eq_by_body (map_next nxt2))
    (Frame identity s1 false) vars w
  = Return (Continue (R := bool) vars, Frame identity e1 true) w.
Proof.
  intros Hem. rewrite for_of_step. unfold map_next at 1.
  cbn [finished callee upstream]. unfold bind at 1.
  simpl in Hem. rewrite Hem. reflexivity.
Qed.

Lemma eq_by_loop_spec l1 : forall l2 s1 e1 s2 e2 pred fuel w,
  emits nxt1 s1 l1 e1 ->
  emits nxt2 s2 l2 e2 ->
  length l1 < fuel ->
  exists fl st w',
    for_of (map_next nxt1) fuel (eq_by_body (map_next nxt2))
      (Frame identity s1 false) (pred, Frame identity s2 false) w
    = Return (fl, st) w'
    /\ flow_result fl = eq_by_spec pred l1 l2 w.
Proof.
  induction l1 as [|x l1 IH]; intros l2 s1 e1 s2 e2 pred fuel w Hem1 Hem2 Hfuel;
    (destruct fuel as [|fuel]; [simpl in Hfuel; lia |]).
  - rewrite (eq_by_loop_end s1 e1 _ fuel w Hem1). do 3 eexists. split; reflexivity.
  - destruct Hem1 as [s1' [Hx Hl1]].
    destruct l2 as [|y l2]; simpl in Hem2.
    + rewrite (eq_by_loop_step x None s1 s1' s2 e2 pred fuel w Hx Hem2).
      do 3 eexists. split; reflexivity.
    + destruct Hem2 as [s2' [Hy Hl2]].
      rewrite (eq_by_loop_step x (Some y) s1 s1' s2 s2' pred fuel w Hx Hy).
      cbn [eq_by_spec].
      destruct (applied pred [x; y] w) as [[p pred'] w'].
      destruct (truthy p).
      * eapply IH; [exact Hl1 | exact Hl2 | simpl in *; lia].
      * do 3 eexists. split; reflexivity.
Qed.

Lemma eq_by_loop_longer l1 : forall l2 extra s1 e1 s2 e2 pred fuel w pred' w',
  emits nxt1 s1 l1 e1 ->
  emits nxt2 s2 (l2 ++ extra) e2 ->
  pairs_pass pred l1 l2 w = Some (pred', w') ->
  length l1 < fuel ->
  exists vars st,
    for_of (map_next nxt1) fuel (eq_by_body (map_next nxt2))
      (Frame identity s1 false) (pred, Frame identity s2 false) w
    = Return (Continue (R := bool) vars, st) w'.
Proof.
  induction l1 as [|x l1 IH];
    intros l2 extra s1 e1 s2 e2 pred fuel w pred' w' Hem1 Hem2 Hpass Hfuel;
    (destruct fuel as [|fuel]; [simpl in Hfuel; lia |]);
    destruct l2 as [|y l2]; simpl in Hpass; try discriminate.
  - injection Hpass as _ <-.
    rewrite (eq_by_loop_end s1 e1 _ fuel w Hem1). do 2 eexists. reflexivity.
  - destruct Hem1 as [s1' [Hx Hl1]].
    simpl in Hem2. destruct Hem2 as [s2' [Hy Hl2]].
    rewrite (eq_by_loop_step x (Some y) s1 s1' s2 s2' pred fuel w Hx Hy).
    destruct (applied pred [x; y] w) as [[p p1] w1].
    destruct (truthy p); [| discriminate].
    eapply IH; [exact Hl1 | exact Hl2 | exact Hpass | simpl in *; lia].
Qed.

Lemma eq_by_loop_past_seq2 prefix : forall x rest l2 s1 e1 s2 e2 pred fuel w pred' w',
  emits nxt1 s1 (prefix ++ x :: rest) e1 ->
  emits nxt2 s2 l2 e2 ->
  pairs_pass pred prefix l2 w = Some (pred', w') ->
  length prefix + 1 < fuel ->
  exists st,
    for_of (map_next nxt1) fuel (eq_by_body (map_next nxt2))
      (Frame identity s1 false) (pred, Frame identity s2 false) w
    = Return (Break false, st) (snd (applied pred' [x; VUndefined] w')).
Proof.
  induction prefix as [|a prefix IH];
    intros x rest l2 s1 e1 s2 e2 pred fuel w pred' w' Hem1 Hem2 Hpass Hfuel;
    (destruct fuel as [|fuel]; [lia |]);
    destruct l2 as [|y l2]; simpl in Hpass; try discriminate;
    simpl in Hem1; destruct Hem1 as [s1' [Hx Hl1]]; simpl in Hem2.
  - injection Hpass as <- <-.
    rewrite (eq_by_loop_step x None s1 s1' s2 e2 pred fuel w Hx Hem2).
    eexists. reflexivity.
  - destruct Hem2 as [s2' [Hy Hl2]].
    rewrite (eq_by_loop_step a (Some y) s1 s1' s2 s2' pred fuel w Hx Hy).
    destruct (applied pred [a; y] w) as [[p p1] w1].
    destruct (truthy p); [| discriminate].
    eapply IH; [exact Hl1 | exact Hl2 | exact Hpass | simpl in *; lia].
Qed.

Lemma eq_by_loop_fails prefix :
  forall x rest1 matched y rest2 s1 e1 s2 e2 pred fuel w pred' w',
  emits nxt1 s1 (prefix ++ x :: rest1) e1 ->
  emits nxt2 s2 (matched ++ y :: rest2) e2 ->
  pairs_pass pred prefix matched w = Some (pred', w') ->
  truthy (fst (fst (applied pred' [x; y] w'))) = false ->
  length prefix + 1 < fuel ->
  exists st,
    for_of (map_next nxt1) fuel (eq_by_body (map_next nxt2))
      (Frame identity s1 false) (pred, Frame identity s2 false) w
    = Return (Break false, st) (snd (applied pred' [x; y] w')).
Proof.
  induction prefix as [|a prefix IH];
    intros x rest1 matched y rest2 s1 e1 s2 e2 pred fuel w pred' w'
           Hem1 Hem2 Hpass Hfalse Hfuel;
    (destruct fuel as [|fuel]; [lia |]);
    destruct matched as [|b matched]; simpl in Hpass; try discriminate;
    simpl in Hem1; destruct Hem1 as [s1' [Hx Hl1]];
    simpl in Hem2; destruct Hem2 as [s2' [Hy Hl2]].
  - injection Hpass as <- <-.
    rewrite (eq_by_loop_step x (Some y) s1 s1' s2 s2' pred fuel w Hx Hy).
    destruct (applied pred [x; y] w) as [[p p1] w1]. simpl in Hfalse.
    rewrite Hfalse. eexists. reflexivity.
  - rewrite (eq_by_loop_step a (Some b) s1 s1' s2 s2' pred fuel w Hx Hy).
    destruct (applied pred [a; b] w) as [[p p1] w1].
    destruct (truthy p); [| discriminate].
    eapply IH; [exact Hl1 | exact Hl2 | exact Hpass | exact Hfalse | simpl in *; lia].
Qed.
End TwoUpstreams.
End LoopProperties.

(** * The claims of the specification *)

Section Claims.
Context {W : Type}.
Implicit Types (w : W) (pred predMap : @Closure W) (iter : @arg W).

(** Replace the loop in the goal by the left-hand side of [H], to which
    it is convertible, and rewrite with [H]. *)
Ltac rewrite_loop H :=
  match type of H with
  | ?L = _ =>
    match goal with
    | |- context [for_of ?n ?f ?b ?s ?a ?w] =>
      change (for_of n f b s a w) with L; rewrite H
    end
  end.

(** [eq_by] on two sequences is the loop over the two wrapped iterators. *)
Lemma eq_by_loop iter1 iter2 (it1 it2 : Iterator) pred fuel w :
  (forall w, ensureIterator iter1 w = Return tt w) ->
  (forall w, GetIterator iter1 w = Return it1 w) ->
  (forall w, ensureIterator iter2 w = Return tt w) ->
  (forall w, GetIterator iter2 w = Return it2 w) ->
  eq_by fuel pred iter1 iter2 w
  = match for_of (map_next (next it1)) fuel (eq_by_body (map_next (next it2)))
            (Frame identity (cur it1) false) (pred, Frame identity (cur it2) false) w
    with
    | Return (fl, _) w' => Return (flow_result fl) w'
    | Throw e w' => Throw e w'
    | OutOfFuel => OutOfFuel
    end.
Proof.
  intros He1 Hg1 He2 Hg2.
  unfold eq_by, map, bind, ret.
  repeat (first [rewrite He1 | rewrite He2 | rewrite Hg1 | rewrite Hg2];
          cbv beta iota).
  cbv beta iota delta [St next cur].
  match goal with
  | |- match ?X with _ => _ end = match ?Y with _ => _ end =>
    change X with Y; destruct Y as [[[vars | b] st] w' | |]; reflexivity
  end.
Qed.

(** C1. eq_by(pred, seq1, seq2) on two finite sequences is [eq_by_spec]:
    false at the first pair on which pred fails or at the first element
    of seq1 that has no counterpart in seq2, true when seq1 is exhausted.
    On a failing pair it returns at once: the world is the one that call
    of pred left.  It is true when seq2 extends a matching prefix with
    further elements, and pred is not called on those.
    eq_by((a,b)=>true, [1], [2]) is true and eq_by(()=>false, [1], [1])
    is false. *)
Theorem C1_eq_by_contract pred iter1 iter2 (seq1 seq2 : list value) (fuel : nat) w :
  yields iter1 seq1 ->
  yields iter2 seq2 ->
  length seq1 < fuel ->
  (exists w', eq_by fuel pred iter1 iter2 w = Return (eq_by_spec pred seq1 seq2 w) w')
  /\ (forall prefix x rest1 matched y rest2 pred' w',
         seq1 = prefix ++ x :: rest1 ->
         seq2 = matched ++ y :: rest2 ->
         pairs_pass pred prefix matched w = Some (pred', w') ->
         truthy (fst (fst (applied pred' [x; y] w'))) = false ->
         eq_by fuel pred iter1 iter2 w = Return false (snd (applied pred' [x; y] w')))
  /\ (forall matched extra pred' w',
         seq2 = matched ++ extra ->
         pairs_pass pred seq1 matched w = Some (pred', w') ->
         eq_by fuel pred iter1 iter2 w = Return true w')
  /\ eq_by 2 (pure_fn (fun _ => VBool true)) (arr [1%Z]) (arr [2%Z]) w = Return true w
  /\ eq_by 2 (pure_fn (fun _ => VBool false)) (arr [1%Z]) (arr [1%Z]) w = Return false w.
Proof.
  intros H1 H2 Hfuel.
  destruct (yields_iterator iter1 seq1 H1) as [it1 [e1 [He1 [Hg1 Hem1]]]].
  destruct (yields_iterator iter2 seq2 H2) as [it2 [e2 [He2 [Hg2 Hem2]]]].
  rewrite (eq_by_loop iter1 iter2 it1 it2 pred fuel w He1 Hg1 He2 Hg2).
  split; [| split; [| split; [| split; reflexivity]]].
  - destruct (eq_by_loop_spec _ _ (next it1) (next it2) seq1 seq2 _ e1 _ e2
                pred fuel w Hem1 Hem2 Hfuel) as [fl [st [w' [Hrun Hres]]]].
    exists w'. rewrite Hrun, Hres. reflexivity.
  - intros prefix x rest1 matched y rest2 pred' w' E1 E2 Hpass Hfalse.
    subst seq1 seq2.
    destruct (eq_by_loop_fails _ _ (next it1) (next it2) prefix x rest1 matched y rest2
                _ e1 _ e2 pred fuel w pred' w' Hem1 Hem2 Hpass Hfalse) as [st Hrun].
    { rewrite length_app in Hfuel. simpl in Hfuel. lia. }
    rewrite Hrun. reflexivity.
  - intros matched extra pred' w' -> Hpass.
    destruct (eq_by_loop_longer _ _ (next it1) (next it2) seq1 matched extra _ e1 _ e2
                pred fuel w pred' w' Hem1 Hem2 Hpass Hfuel) as [vars [st Hrun]].
    rewrite Hrun. reflexivity.
Qed.

(** C2. zip(seq1, seq2) on two finite sequences returns, without pulling
    anything, a generator whose elements are [interleave seq1 seq2]: each
    element of seq1 followed by its counterpart in seq2 while seq2 has
    one.  When the generator is exhausted seq1 has been consumed, and if
    seq1 is not the longer one the iterator of seq2 is left in a state
    from which it emits the elements beyond the first [length seq1].
    The same holds for arrays, and collecting zip([1,2],[3,4]) gives
    [1,3,2,4]. *)
Theorem C2_zip_flat_interleave (it1 it2 : @Iterator W) (seq1 seq2 : list value)
    (e1 : St it1) (e2 : St it2) (fuel : nat) w :
  emits (next it1) (cur it1) seq1 e1 ->
  emits (next it2) (cur it2) seq2 e2 ->
  2 * length seq1 < fuel ->
  let z := mkIterator (ZipSt ZipHead (cur it1) (Frame identity (cur it2) false))
                      (zip_next (next it1) (map_next (next it2))) in
  zip (Gen it1) (Gen it2) w = Return z w
  /\ (exists s2',
         spread (next z) fuel (cur z) w
         = Return (interleave seq1 seq2,
                   ZipSt ZipDone e1
                         (Frame identity s2' (length seq2 <? length seq1))) w
         /\ if length seq2 <? length seq1 then s2' = e2
            else emits (next it2) s2' (skipn (length seq1) seq2) e2)
  /\ collect_of fuel (zip (Gen it1) (Gen it2)) w = Return (interleave seq1 seq2) w
  /\ collect_of fuel (zip (Val (VArr seq1)) (Val (VArr seq2))) w
     = Return (interleave seq1 seq2) w
  /\ collect_of 5 (zip (arr [1; 2]%Z) (arr [3; 4]%Z)) w = Return (nums [1; 3; 2; 4]%Z) w.
Proof.
  intros Hem1 Hem2 Hfuel z.
  destruct (zip_for_of _ _ (next it1) (next it2) seq1 seq2 _ e1 _ e2 [] fuel w
              Hem1 Hem2 Hfuel) as [s2' [Hrun Hrest]].
  destruct (zip_for_of _ _ array_next array_next seq1 seq2 _ [] _ [] [] fuel w
              (emits_array seq1) (emits_array seq2) Hfuel) as [a2 [Harr _]].
  split; [reflexivity | split; [| split; [| split; [| reflexivity]]]].
  - exists s2'. split; [| exact Hrest].
    subst z. unfold spread, bind. cbv beta iota delta [St next cur].
    rewrite_loop Hrun. reflexivity.
  - cbv [collect_of zip collect spread bind]. cbn -[for_of zip_next map_next].
    cbv beta iota delta [St next cur].
    rewrite_loop Hrun. reflexivity.
  - cbv [collect_of zip collect spread bind]. cbn -[for_of zip_next map_next].
    cbv beta iota delta [St next cur].
    rewrite_loop Harr. reflexivity.
Qed.

(** C3 (as the code behaves). cycle of an empty array is a generator
    that yields [undefined] on every advance: [item[0]] is read from the
    empty buffer.  Taking three elements of it collects three
    [undefined]. *)
Theorem C3_cycle_of_empty_yields_undefined (fuel : nat) w :
  cycle (Datatypes.S fuel) (Val (VArr [])) w
  = Return (mkIterator 0%Z (cycle_next [])) w
  /\ (forall (k : nat) w',
         cycle_next [] (Z.of_nat k) w' = Return (Some VUndefined, 1%Z) w')
  /\ collect_of 4 (take 3 (Gen (mkIterator 0%Z (cycle_next [])))) w
     = Return [VUndefined; VUndefined; VUndefined] w.
Proof.
  split; [reflexivity | split; [| reflexivity]].
  intros k w'. unfold cycle_next. cbn [length].
  destruct (Z.gtb_spec (Z.of_nat k) (Z.of_nat 0 - 1)); [reflexivity | lia].
Qed.

(** C4 (amended). A combinator called with a non-iterable in an iterable
    position throws an error of class NotIterator, a TypeError, with
    code 1 and message "Value is not an iterator". *)
Theorem C4_guard_error (fuel : nat) (c : invocation) w :
  (exists a, In a (sequence_arguments c) /\ is_sequence a = false) ->
  exists e,
    invoke fuel c w = Throw e w
    /\ exn_class e = NotIterator
    /\ instanceof e TypeError = true
    /\ code e = Some 1%Z
    /\ message e = "Value is not an iterator"%string.
Proof.
  intros Hbad. exists new_NotIterator.
  rewrite (invoke_guard fuel c w Hbad). repeat split.
Qed.

(** C5. A combinator called with a non-iterable in an iterable position
    throws NotIterator as the outcome of the call itself, whatever the
    other arguments are and with no fuel at all: no generator is
    returned, and the world is the one of the call, so no element has
    been pulled and no callback has run. *)
Theorem C5_guard_is_synchronous (fuel : nat) (c : invocation) w :
  (exists a, In a (sequence_arguments c) /\ is_sequence a = false) ->
  invoke fuel c w = Throw new_NotIterator w
  /\ invoke 0 c w = Throw new_NotIterator w
  /\ (forall it w', invoke fuel c w <> Return (RIter it) w').
Proof.
  intros Hbad. rewrite !(invoke_guard _ c w Hbad).
  repeat split. intros it w' H. discriminate H.
Qed.

(** C6. For n >= 0, collecting take(n, s) over a finite sequence s gives
    the first n elements of s: a list of length min(n, length s), empty
    for n = 0 and all of s when n is at least its length. *)
Theorem C6_take_length (n : Z) iter (s : list value) (fuel : nat) w :
  (0 <= n)%Z ->
  yields iter s ->
  length s < fuel ->
  collect_of fuel (take n iter) w = Return (firstn (Z.to_nat n) s) w
  /\ length (firstn (Z.to_nat n) s) = Nat.min (Z.to_nat n) (length s)
  /\ collect_of fuel (take 0 iter) w = Return [] w
  /\ ((Z.of_nat (length s) <= n)%Z -> collect_of fuel (take n iter) w = Return s w).
Proof.
  intros Hn Hs Hfuel.
  destruct (yields_iterator iter s Hs) as [it [e [Hens [Hget Hem]]]].
  assert (Htake : forall m,
             collect_of fuel (take m iter) w = Return (firstn (Z.to_nat m) s) w).
  { intros m.
    destruct (take_for_of _ (next it) m s (cur it) e 0%Z [] fuel w Hem Hfuel)
      as [st Hst].
    cbv [collect_of take takeWhile bind]. rewrite Hens, Hget.
    cbv [ret collect spread bind]. cbn -[for_of takeWhile_next take_pred].
    cbv beta iota delta [St next cur].
    rewrite_loop Hst. rewrite Z.sub_0_r. reflexivity. }
  split; [apply Htake | split; [apply length_firstn | split]].
  - apply (Htake 0%Z).
  - intros Hall. rewrite Htake, firstn_all2 by lia. reflexivity.
Qed.

(** C7. Collecting skipWhile(pred, s) over a finite sequence s gives
    [skipWhile_spec]: the leading elements on which pred is truthy are
    dropped, the first element on which it is falsy is kept and so is
    every element after it; pred is called once on every element of s.
    With a pred that is true on its first two calls only, [1,2,3]
    collects to [3]. *)
Theorem C7_skipWhile_contract pred iter (s : list value) (fuel gas : nat) w :
  yields iter s ->
  length s < gas ->
  length s < fuel ->
  collect_of fuel (skipWhile gas pred iter) w
  = Return (skipWhile_spec pred s w) (snd (calls pred s w))
  /\ collect_of 4 (skipWhile 4 first_two_calls (arr [1; 2; 3]%Z)) w
     = Return (nums [3%Z]) w.
Proof.
  intros Hs Hgas Hfuel. split; [| reflexivity].
  destruct (yields_iterator iter s Hs) as [it [e [Hens [Hget Hem]]]].
  destruct (skipWhile_for_of _ (next it) s (cur it) e pred [] fuel gas w Hem Hgas Hfuel)
    as [st Hst].
  cbv [collect_of skipWhile bind]. rewrite Hens, Hget.
  cbv [ret collect spread bind]. cbn -[for_of skipWhile_next].
  cbv beta iota delta [St next cur].
  rewrite_loop Hst. reflexivity.
Qed.

(** C8. Collecting filter_map(predMap, s) over a finite sequence s gives
    the truthy ones among the results of predMap on the elements of s,
    in order, and not the elements themselves; predMap is called once on
    every element.  0, the empty string and false are falsy, so elements
    mapped to them are dropped. *)
Theorem C8_filter_map_contract predMap iter (s : list value) (fuel gas : nat) w :
  yields iter s ->
  length s < gas ->
  length s < fuel ->
  collect_of fuel (filter_map gas predMap iter) w
  = Return (filter_map_spec predMap s w) (snd (calls predMap s w))
  /\ (forall v, In v (filter_map_spec predMap s w) <->
                truthy v = true /\ In v (fst (fst (calls predMap s w))))
  /\ truthy (VNum 0) = false /\ truthy (VStr "") = false /\ truthy (VBool false) = false.
Proof.
  intros Hs Hgas Hfuel. split; [| split; [| repeat split]].
  - destruct (yields_iterator iter s Hs) as [it [e [Hens [Hget Hem]]]].
    pose proof (filter_map_for_of _ (next it) s (cur it) e predMap [] fuel gas w
                  Hem Hgas Hfuel) as Hrun.
    cbv [collect_of filter_map bind]. rewrite Hens, Hget.
    cbv [ret collect spread bind]. cbn -[for_of filter_map_next].
    cbv beta iota delta [St next cur].
    unfold filter_map_spec.
    destruct (calls predMap s w) as [[vs p'] w'].
    rewrite_loop Hrun. reflexivity.
  - intros v. unfold filter_map_spec. rewrite filter_In. tauto.
Qed.

(** C10. When seq2 is shorter than seq1 and pred has held on every pair
    up to the end of seq2, eq_by calls pred once more, on the next
    element of seq1 and [undefined], and then returns false: the world
    it leaves is the world after that call. *)
Theorem C10_eq_by_calls_pred_with_undefined pred iter1 iter2 (prefix : list value)
    (x : value) (rest seq2 : list value) (fuel : nat) w pred' w' :
  yields iter1 (prefix ++ x :: rest) ->
  yields iter2 seq2 ->
  pairs_pass pred prefix seq2 w = Some (pred', w') ->
  length prefix + 1 < fuel ->
  eq_by fuel pred iter1 iter2 w
  = Return false (snd (applied pred' [x; VUndefined] w')).
Proof.
  intros H1 H2 Hpass Hfuel.
  destruct (yields_iterator iter1 _ H1) as [it1 [e1 [He1 [Hg1 Hem1]]]].
  destruct (yields_iterator iter2 _ H2) as [it2 [e2 [He2 [Hg2 Hem2]]]].
  rewrite (eq_by_loop iter1 iter2 it1 it2 pred fuel w He1 Hg1 He2 Hg2).
  destruct (eq_by_loop_past_seq2 _ _ (next it1) (next it2) prefix x rest seq2 _ e1 _ e2
              pred fuel w pred' w' Hem1 Hem2 Hpass Hfuel) as [st Hrun].
  rewrite Hrun. reflexivity.
Qed.
End Claims.

(** C9. For a function of declared arity n, a wrapper called with k
    arguments calls the function on exactly those arguments when k >= n;
    when k < n it returns a wrapper holding them, and calling that with
    further arguments is calling the first wrapper with the prefix
    followed by the new arguments.  A partial wrapper is not changed by
    being called: two calls of it each depend on its prefix and their own
    arguments only. *)
Theorem C9_curry_contract (A R : Type) (fn : JsFunction A R) (args : list A) :
  (fn_length fn <= length args -> curry fn args = Result (fn_apply fn args))
  /\ (length args < fn_length fn ->
      curry fn args = Partial args
      /\ (forall other,
             call_curried fn (curry fn args) other = curry fn (args ++ other))
      /\ (forall other,
             fn_length fn <= length (args ++ other) ->
             call_curried fn (curry fn args) other
             = Result (fn_apply fn (args ++ other)))
      /\ (forall other1 other2,
             let partial := curry fn args in
             call_curried fn partial other1 = curry fn (args ++ other1)
             /\ call_curried fn partial other2 = curry fn (args ++ other2))).
Proof.
  assert (Hfull : forall l, fn_length fn <= length l -> curry fn l = Result (fn_apply fn l)).
  { intros l Hl. unfold curry.
    destruct (Nat.leb_spec (fn_length fn) (length l)); [reflexivity | lia]. }
  split; [apply Hfull |].
  intros Hk.
  assert (Hpart : curry fn args = Partial args).
  { unfold curry.
    destruct (Nat.leb_spec (fn_length fn) (length args)); [lia | reflexivity]. }
  rewrite Hpart. split; [reflexivity | split; [| split]].
  - intros other. reflexivity.
  - intros other Hall. simpl. unfold call_partial. apply Hfull, Hall.
  - intros other1 other2 partial. split; reflexivity.
Qed.

(** * The other combinators *)

Section MoreLoops.
Context {W : Type}.
Implicit Types (w : W) (l : list value) (pred predMap fn : @Closure W).

Lemma GetIterator_returns (a : @arg W) :
  is_sequence a = true -> exists it, forall w, GetIterator a w = Return it w.
Proof.
  destruct a as [v | it]; [| eexists; reflexivity].
  destruct v; intros Hseq; try discriminate; eexists; reflexivity.
Qed.

Lemma emits_runs {S : Type} (nxt : S -> M W (option value * S)) l :
  forall (s e : S) w, emits nxt s l e -> runs nxt s w l e w.
Proof.
  induction l as [|x l IH]; intros s e w Hem; simpl in *.
  - apply Hem.
  - destruct Hem as [s1 [Hx Hl]]. exists s1, w. split; [apply Hx | apply IH, Hl].
Qed.

Lemma runs_same_next {S : Type} (nxt : S -> M W (option value * S))
    (s1 s2 : S) w1 w2 l (e : S) w' :
  nxt s1 w1 = nxt s2 w2 -> runs nxt s1 w1 l e w' -> runs nxt s2 w2 l e w'.
Proof. intros H. destruct l; simpl; rewrite H; trivial. Qed.

(** Spreading a generator that runs through [l] gives [l]. *)
Lemma for_of_runs {S : Type} (nxt : S -> M W (option value * S)) l :
  forall (s e : S) w w' (acc : list value) fuel,
  runs nxt s w l e w' ->
  length l < fuel ->
  for_of (R := Empty_set) nxt fuel (fun item acc => ret (Continue (acc ++ [item]))) s acc w
  = Return (Continue (acc ++ l), e) w'.
Proof.
  induction l as [|x l IH]; intros s e w w' acc fuel Hrun Hfuel;
    (destruct fuel as [|fuel]; [simpl in Hfuel; lia |]);
    rewrite for_of_step; simpl in Hrun.
  - rewrite Hrun, app_nil_r. reflexivity.
  - destruct Hrun as [s1 [w1 [Hx Hl]]]. rewrite Hx. unfold ret at 1.
    rewrite (IH s1 e w1 w') by (simpl in *; auto; lia).
    rewrite <- app_assoc. reflexivity.
Qed.

Lemma collect_runs (it : @Iterator W) l (e : St it) w w' fuel :
  runs (next it) (cur it) w l e w' ->
  length l < fuel ->
  collect fuel (Gen it) w = Return l w'.
Proof.
  intros Hrun Hfuel. cbv [collect spread bind]. cbn -[for_of next cur].
  rewrite (for_of_runs (next it) l (cur it) e w w' [] fuel Hrun Hfuel).
  reflexivity.
Qed.

(** An eager loop over a finite sequence is the loop over its elements. *)
Lemma for_of_emits {S A R : Type} (nxt : S -> M W (option value * S))
    (loop_body : value -> A -> M W (flow A R)) l :
  forall (s e : S) (a : A) fuel w,
  emits nxt s l e ->
  length l < fuel ->
  exists st,
    for_of nxt fuel loop_body s a w
    = match loop_list loop_body l a w with
      | Return fl w' => Return (fl, st) w'
      | Throw ex w' => Throw ex w'
      | OutOfFuel => OutOfFuel
      end.
Proof.
  induction l as [|x l IH]; intros s e a fuel w Hem Hfuel;
    (destruct fuel as [|fuel]; [simpl in Hfuel; lia |]);
    rewrite for_of_step; simpl in Hem; cbn [loop_list].
  - rewrite Hem. exists e. reflexivity.
  - destruct Hem as [s1 [Hx Hl]]. rewrite Hx. unfold bind.
    destruct (loop_body x a w) as [[a' | r] w1 | ex w1 |].
    + apply (IH s1 e a' fuel w1 Hl). simpl in Hfuel. lia.
    + exists s1. reflexivity.
    + exists s1. reflexivity.
    + exists s1. reflexivity.
Qed.

Lemma calls_length fn l : forall w, length (fst (fst (calls fn l w))) = length l.
Proof.
  revert fn. induction l as [|x l IH]; intros fn w; simpl; [reflexivity |].
  destruct (applied fn [x] w) as [[v f'] w'].
  specialize (IH f' w'). destruct (calls f' l w') as [[vs f''] w''].
  simpl in *. rewrite IH. reflexivity.
Qed.

Lemma applied_pure (f : list value -> value) (args : list value) w :
  applied (pure_fn f) args w = (f args, pure_fn f, w).
Proof. reflexivity. Qed.

Lemma calls_pure (f : list value -> value) l w :
  calls (pure_fn f) l w = (List.map (fun x => f [x]) l, pure_fn f, w).
Proof.
  induction l as [|x l IH]; [reflexivity |].
  cbn [calls]. rewrite applied_pure, IH. reflexivity.
Qed.

Section Upstream.
Variable S : Type.
Variable nxt : S -> M W (option value * S).
Implicit Types (s e : S).

(** *** map, tap, enumerate, scan: one element out for one element in *)

Lemma map_runs l : forall s e fn w,
  emits nxt s l e ->
  runs (map_next nxt) (Frame fn s false) w (fst (fst (calls fn l w)))
       (Frame (snd (fst (calls fn l w))) e true) (snd (calls fn l w)).
Proof.
  induction l as [|x l IH]; intros s e fn w Hem; simpl in Hem; simpl calls.
  - simpl. unfold map_next, bind. cbn [finished callee upstream].
    rewrite Hem. reflexivity.
  - destruct Hem as [s1 [Hx Hl]].
    destruct (applied fn [x] w) as [[v f'] w'] eqn:Happ.
    specialize (IH s1 e f' w' Hl).
    destruct (calls f' l w') as [[vs f''] w''].
    cbn [fst snd runs] in *.
    exists (Frame f' s1 false), w'. split; [| exact IH].
    unfold map_next, bind. cbn [finished callee upstream].
    rewrite Hx. cbv beta iota. rewrite call_apply, Happ. reflexivity.
Qed.

Lemma tap_runs l : forall s e fn w,
  emits nxt s l e ->
  runs (tap_next nxt) (Frame fn s false) w l
       (Frame (snd (fst (calls fn l w))) e true) (snd (calls fn l w)).
Proof.
  induction l as [|x l IH]; intros s e fn w Hem; simpl in Hem; simpl calls.
  - simpl. unfold tap_next, bind. cbn [finished callee upstream].
    rewrite Hem. reflexivity.
  - destruct Hem as [s1 [Hx Hl]].
    destruct (applied fn [x] w) as [[v f'] w'] eqn:Happ.
    specialize (IH s1 e f' w' Hl).
    destruct (calls f' l w') as [[vs f''] w''].
    cbn [fst snd runs] in *.
    exists (Frame f' s1 false), w'. split; [| exact IH].
    unfold tap_next, bind. cbn [finished callee upstream].
    rewrite Hx. cbv beta iota. rewrite call_apply, Happ. reflexivity.
Qed.

Lemma enumerate_runs l : forall s e (i : nat) w,
  emits nxt s l e ->
  runs (enumerate_next nxt) (EnumSt (Z.of_nat i) s false) w
       (List.map (fun p => VArr [fst p; VNum (Z.of_nat (snd p))])
                 (List.combine l (List.seq i (length l))))
       (EnumSt (Z.of_nat (i + length l)) e true) w.
Proof.
  induction l as [|x l IH]; intros s e i w Hem; simpl in Hem.
  - simpl. unfold enumerate_next, bind. cbn [enum_finished enum_i enum_up].
    rewrite Hem, Nat.add_0_r. reflexivity.
  - destruct Hem as [s1 [Hx Hl]].
    cbn [length List.seq List.combine List.map runs fst snd].
    exists (EnumSt (Z.of_nat (Datatypes.S i)) s1 false), w. split.
    + unfold enumerate_next, bind. cbn [enum_finished enum_i enum_up].
      rewrite Hx. cbv beta iota. unfold ret.
      replace (Z.of_nat i + 1)%Z with (Z.of_nat (Datatypes.S i)) by lia.
      reflexivity.
    + replace (i + Datatypes.S (length l)) with (Datatypes.S i + length l) by lia.
      apply IH, Hl.
Qed.

Lemma scan_runs l : forall s e fn (state : value) w,
  emits nxt s l e ->
  exists st,
    runs (scan_next nxt) (ScanSt fn state s false) w
         (fst (scan_spec fn state l w)) st (snd (scan_spec fn state l w)).
Proof.
  induction l as [|x l IH]; intros s e fn state w Hem; simpl in Hem; simpl scan_spec.
  - eexists. simpl. unfold scan_next, bind.
    cbn [scan_finished scan_fn scan_acc scan_up]. rewrite Hem. reflexivity.
  - destruct Hem as [s1 [Hx Hl]].
    destruct (applied fn [state; x] w) as [[state' f'] w'] eqn:Happ.
    destruct (IH s1 e f' state' w' Hl) as [st Hst].
    destruct (scan_spec f' state' l w') as [rest w''].
    cbn [fst snd runs] in *.
    exists st, (ScanSt f' state' s1 false), w'. split; [| exact Hst].
    unfold scan_next, bind. cbn [scan_finished scan_fn scan_acc scan_up].
    rewrite Hx. cbv beta iota. rewrite call_apply, Happ. reflexivity.
Qed.

(** *** filter *)

Lemma filter_loop_gas l : forall s e pred w g1 g2,
  emits nxt s l e ->
  length l < g1 -> length l < g2 ->
  filter_loop nxt g1 pred s w = filter_loop nxt g2 pred s w.
Proof.
  induction l as [|x l IH]; intros s e pred w g1 g2 Hem H1 H2;
    destruct g1 as [|g1]; destruct g2 as [|g2]; simpl in H1, H2; try lia;
    cbn [filter_loop]; unfold bind; simpl in Hem.
  - rewrite Hem. reflexivity.
  - destruct Hem as [s' [Hx Hl]]. rewrite Hx, call_apply.
    destruct (applied pred [x] w) as [[v p'] w'].
    destruct (truthy v); [reflexivity | eapply IH; [exact Hl | lia | lia]].
Qed.

Lemma filter_next_nil pred s e gas w :
  emits nxt s [] e ->
  0 < gas ->
  filter_next nxt gas (Frame pred s false) w = Return (None, Frame pred e true) w.
Proof.
  intros Hem Hgas. destruct gas; [lia |].
  unfold filter_next. cbn [finished callee upstream filter_loop].
  unfold bind. simpl in Hem. rewrite Hem. reflexivity.
Qed.

Lemma filter_next_cons pred x l s s' e gas w :
  (forall w, nxt s w = Return (Some x, s') w) ->
  emits nxt s' l e ->
  length (x :: l) < gas ->
  filter_next nxt gas (Frame pred s false) w
  = let '(v, p', w') := applied pred [x] w in
    if truthy v then Return (Some x, Frame p' s' false) w'
    else filter_next nxt gas (Frame p' s' false) w'.
Proof.
  intros Hx Hl Hgas. destruct gas as [|gas]; [simpl in Hgas; lia |].
  assert (E : forall p' w',
             filter_next nxt (Datatypes.S gas) (Frame p' s' false) w'
             = filter_loop nxt gas p' s' w').
  { intros. unfold filter_next. cbn [finished callee upstream].
    eapply filter_loop_gas; [exact Hl | simpl in *; lia ..]. }
  destruct (applied pred [x] w) as [[v p'] w'] eqn:Happ.
  rewrite E. unfold filter_next.
  cbn [finished callee upstream filter_loop]. unfold bind.
  rewrite Hx, call_apply, Happ.
  destruct (truthy v); reflexivity.
Qed.

Lemma filter_runs l : forall s e pred w gas,
  emits nxt s l e ->
  length l < gas ->
  runs (filter_next nxt gas) (Frame pred s false) w (filter_spec pred l w)
       (Frame (snd (fst (calls pred l w))) e true) (snd (calls pred l w)).
Proof.
  induction l as [|x l IH]; intros s e pred w gas Hem Hgas.
  - simpl. apply filter_next_nil; [exact Hem | lia].
  - destruct Hem as [s1 [Hx Hl]]. simpl calls. simpl filter_spec.
    pose proof (filter_next_cons pred x l s s1 e gas w Hx Hl Hgas) as Hstep.
    destruct (applied pred [x] w) as [[v p'] w'] eqn:Happ.
    assert (IH' := IH s1 e p' w' gas Hl ltac:(simpl in Hgas; lia)).
    destruct (calls p' l w') as [[vs p''] w''].
    cbn [fst snd] in *.
    destruct (truthy v).
    + cbn [runs]. exists (Frame p' s1 false), w'. split; assumption.
    + eapply runs_same_next; [symmetry; exact Hstep | exact IH'].
Qed.

(** *** takeWhile *)

Lemma takeWhile_runs l : forall s e pred w,
  emits nxt s l e ->
  exists st,
    runs (takeWhile_next nxt) (Frame pred s false) w
         (fst (takeWhile_spec pred l w)) st (snd (takeWhile_spec pred l w)).
Proof.
  induction l as [|x l IH]; intros s e pred w Hem; simpl in Hem; simpl takeWhile_spec.
  - eexists. simpl. unfold takeWhile_next, bind. cbn [finished callee upstream].
    rewrite Hem. reflexivity.
  - destruct Hem as [s1 [Hx Hl]].
    assert (Hstep : takeWhile_next nxt (Frame pred s false) w
                    = let '(p, pred', w') := applied pred [x] w in
                      if truthy p then Return (Some x, Frame pred' s1 false) w'
                      else Return (None, Frame pred' s1 true) w').
    { unfold takeWhile_next, bind. cbn [finished callee upstream].
      rewrite Hx. cbv beta iota. rewrite call_apply.
      destruct (applied pred [x] w) as [[p pred'] w'].
      destruct (truthy p); reflexivity. }
    destruct (applied pred [x] w) as [[p pred'] w'].
    destruct (truthy p).
    + destruct (IH s1 e pred' w' Hl) as [st Hst].
      destruct (takeWhile_spec pred' l w') as [rest w''].
      cbn [fst snd runs] in *.
      exists st, (Frame pred' s1 false), w'. split; assumption.
    + eexists. exact Hstep.
Qed.

(** [take] over an iterator that has at least one element more. *)
Lemma take_prefix_runs (num : Z) l : forall s s' (x : value) (c : Z) w,
  emits_prefix nxt s (l ++ [x]) s' ->
  length l = Z.to_nat (num - c) ->
  runs (takeWhile_next nxt) (Frame (take_counter num c) s false) w l
       (Frame (take_counter num (c + Z.of_nat (length l) + 1)) s' true) w.
Proof.
  induction l as [|y l IH]; intros s s' x c w Hem Hlen; simpl in Hem;
    destruct Hem as [s1 [Hy Hl]].
  - simpl in Hl. subst s1. simpl. unfold takeWhile_next, bind.
    cbn [finished callee upstream]. rewrite Hy. cbn -[Z.add Z.ltb].
    simpl in Hlen.
    destruct (Z.ltb_spec (c + 1) (num + 1)); [lia |].
    replace (c + 0 + 1)%Z with (c + 1)%Z by lia. reflexivity.
  - cbn [runs]. exists (Frame (take_counter num (c + 1)) s1 false), w. split.
    + unfold takeWhile_next, bind. cbn [finished callee upstream].
      rewrite Hy. cbn -[Z.add Z.ltb]. simpl in Hlen.
      destruct (Z.ltb_spec (c + 1) (num + 1)); [reflexivity | lia].
    + replace (c + Z.of_nat (length (y :: l)) + 1)%Z
        with ((c + 1) + Z.of_nat (length l) + 1)%Z by (simpl length; lia).
      apply (IH s1 s' x (c + 1)%Z w Hl). simpl in Hlen. lia.
Qed.

(** *** flatMap *)





End Upstream.

(** *** chain *)

Section Chain.
Variables S1 S2 : Type.
Variable nxt1 : S1 -> M W (option value * S1).
Variable nxt2 : S2 -> M W (option value * S2).

Lemma chain_second_runs l2 : forall (u1 : S1) (s2 e2 : S2) w,
  emits nxt2 s2 l2 e2 ->
  runs (chain_next nxt1 nxt2) (ChainSecond, u1, s2) w l2 (ChainDone, u1, e2) w.
Proof.
  induction l2 as [|y l2 IH]; intros u1 s2 e2 w Hem; simpl in Hem.
  - simpl. unfold chain_second, bind. rewrite Hem. reflexivity.
  - destruct Hem as [s2' [Hy Hl]]. cbn [runs].
    exists (ChainSecond, u1, s2'), w. split; [| apply IH, Hl].
    simpl. unfold chain_second, bind. rewrite Hy. reflexivity.
Qed.

Lemma chain_runs l1 : forall l2 (s1 e1 : S1) (s2 e2 : S2) w,
  emits nxt1 s1 l1 e1 ->
  emits nxt2 s2 l2 e2 ->
  runs (chain_next nxt1 nxt2) (ChainFirst, s1, s2) w (l1 ++ l2) (ChainDone, e1, e2) w.
Proof.
  induction l1 as [|x l1 IH]; intros l2 s1 e1 s2 e2 w Hem1 Hem2; simpl in Hem1.
  - apply (runs_same_next _ (ChainSecond, e1, s2) (ChainFirst, s1, s2) w w).
    + cbn [chain_next]. unfold bind. rewrite Hem1. reflexivity.
    + apply chain_second_runs, Hem2.
  - destruct Hem1 as [s1' [Hx Hl]]. cbn [app runs].
    exists (ChainFirst, s1', s2), w. split; [| apply (IH l2 s1' e1 s2 e2 w Hl Hem2)].
    simpl. unfold bind. rewrite Hx. reflexivity.
Qed.
End Chain.
End MoreLoops.

(** Replace the loop in the goal by the left-hand side of [H], to which
    it is convertible, and rewrite with [H]. *)
Ltac rewrite_for_of H :=
  match type of H with
  | ?L = _ =>
    match goal with
    | |- context [for_of ?n ?f ?b ?s ?a ?w] =>
      change (for_of n f b s a w) with L; rewrite H
    end
  end.

Section EagerLoops.
Context {W : Type}.
Implicit Types (w : W) (l : list value) (pred predMap fn : @Closure W).

Lemma all_loop l : forall pred w,
  exists fl,
    loop_list (fun item pred =>
                 ' (p, pred') <- call pred [item] ;;
                 if negb (truthy p) then ret (Break false)
                 else ret (Continue pred')) l pred w
    = Return fl (snd (all_spec pred l w))
    /\ match fl with Break b => b | Continue _ => true end = fst (all_spec pred l w).
Proof.
  induction l as [|x l IH]; intros pred w; cbn [loop_list all_spec].
  - eexists. split; reflexivity.
  - unfold bind. rewrite call_apply.
    destruct (applied pred [x] w) as [[p pred'] w'].
    destruct (truthy p); cbn [negb].
    + apply IH.
    + eexists. split; reflexivity.
Qed.

Lemma some_loop l : forall pred w,
  exists fl,
    loop_list (fun item pred =>
                 ' (p, pred') <- call pred [item] ;;
                 if truthy p then ret (Break true)
                 else ret (Continue pred')) l pred w
    = Return fl (snd (some_spec pred l w))
    /\ match fl with Break b => b | Continue _ => false end = fst (some_spec pred l w).
Proof.
  induction l as [|x l IH]; intros pred w; cbn [loop_list some_spec].
  - eexists. split; reflexivity.
  - unfold bind. rewrite call_apply.
    destruct (applied pred [x] w) as [[p pred'] w'].
    destruct (truthy p).
    + eexists. split; reflexivity.
    + apply IH.
Qed.

Lemma find_loop l : forall pred w,
  exists fl,
    loop_list (fun item pred =>
                 ' (p, pred') <- call pred [item] ;;
                 if truthy p then ret (Break item)
                 else ret (Continue pred')) l pred w
    = Return fl (snd (find_spec pred l w))
    /\ match fl with Break item => item | Continue _ => VUndefined end
       = fst (find_spec pred l w).
Proof.
  induction l as [|x l IH]; intros pred w; cbn [loop_list find_spec].
  - eexists. split; reflexivity.
  - unfold bind. rewrite call_apply.
    destruct (applied pred [x] w) as [[p pred'] w'].
    destruct (truthy p).
    + eexists. split; reflexivity.
    + apply IH.
Qed.

Lemma find_map_loop l : forall predMap w,
  exists fl,
    loop_list (fun item predMap =>
                 ' (result, predMap') <- call predMap [item] ;;
                 if truthy result then ret (Break result)
                 else ret (Continue predMap')) l predMap w
    = Return fl (snd (find_map_spec predMap l w))
    /\ match fl with Break result => result | Continue _ => VUndefined end
       = fst (find_map_spec predMap l w).
Proof.
  induction l as [|x l IH]; intros predMap w; cbn [loop_list find_map_spec].
  - eexists. split; reflexivity.
  - unfold bind. rewrite call_apply.
    destruct (applied predMap [x] w) as [[p pred'] w'].
    destruct (truthy p).
    + eexists. split; reflexivity.
    + apply IH.
Qed.

Lemma count_loop l : forall (i : Z) w,
  loop_list (R := Empty_set) (fun _ i => ret (Continue (i + 1)%Z)) l i w
  = Return (Continue (i + Z.of_nat (length l))%Z) w.
Proof.
  induction l as [|x l IH]; intros i w; cbn [loop_list length].
  - unfold ret. rewrite Z.add_0_r. reflexivity.
  - unfold bind, ret at 1. rewrite IH.
    replace (i + 1 + Z.of_nat (length l))%Z
      with (i + Z.of_nat (Datatypes.S (length l)))%Z by lia.
    reflexivity.
Qed.

Lemma nth_loop (index : Z) l : forall (i : Z) w,
  (i <= index)%Z ->
  exists fl,
    loop_list (fun item i =>
                 if (i =? index)%Z then ret (Break item)
                 else ret (Continue (i + 1)%Z)) l i w
    = Return fl w
    /\ match fl with Break item => item | Continue _ => VUndefined end
       = List.nth (Z.to_nat (index - i)) l VUndefined.
Proof.
  induction l as [|x l IH]; intros i w Hi; cbn [loop_list].
  - eexists. split; [reflexivity |]. destruct (Z.to_nat (index - i)); reflexivity.
  - unfold bind. destruct (Z.eqb_spec i index) as [-> | Hne].
    + eexists. split; [reflexivity |]. rewrite Z.sub_diag. reflexivity.
    + unfold ret at 1. destruct (IH (i + 1)%Z w) as [fl [Hrun Hres]]; [lia |].
      exists fl. split; [exact Hrun |]. rewrite Hres.
      replace (Z.to_nat (index - i)) with (Datatypes.S (Z.to_nat (index - (i + 1)))) by lia.
      reflexivity.
Qed.

Lemma nth_loop_negative (index : Z) l : forall (i : Z) w,
  (index < i)%Z ->
  exists i',
    loop_list (R := value) (fun item i =>
                 if (i =? index)%Z then ret (Break item)
                 else ret (Continue (i + 1)%Z)) l i w
    = Return (Continue i') w.
Proof.
  induction l as [|x l IH]; intros i w Hi; cbn [loop_list].
  - eexists. reflexivity.
  - unfold bind. destruct (Z.eqb_spec i index) as [-> | Hne]; [lia |].
    unfold ret at 1. apply IH. lia.
Qed.

Lemma fold_loop l : forall fn (state : value) w,
  exists fn',
    loop_list (R := Empty_set)
      (fun item '(fn, state) =>
         ' (state', fn') <- call fn [state; item] ;;
         ret (Continue (fn', state'))) l (fn, state) w
    = Return (Continue (fn', fst (fold_spec fn state l w))) (snd (fold_spec fn state l w)).
Proof.
  induction l as [|x l IH]; intros fn state w; cbn [loop_list fold_spec].
  - eexists. reflexivity.
  - unfold bind. rewrite call_apply.
    destruct (applied fn [state; x] w) as [[state' fn'] w'].
    unfold ret at 1. apply IH.
Qed.

Lemma last_cons_default (a d : value) (l : list value) :
  List.last (a :: l) d = List.last l a.
Proof.
  revert a d. induction l as [|b l IH]; intros a d; [reflexivity |].
  change (List.last (a :: b :: l) d) with (List.last (b :: l) d).
  rewrite (IH b d), (IH b a). reflexivity.
Qed.

(** fold goes through the states scan yields. *)
Lemma fold_last_scan l : forall fn (state : value) w,
  fst (fold_spec fn state l w) = List.last (fst (scan_spec fn state l w)) state
  /\ snd (fold_spec fn state l w) = snd (scan_spec fn state l w).
Proof.
  induction l as [|x l IH]; intros fn state w; cbn [fold_spec scan_spec].
  - split; reflexivity.
  - destruct (applied fn [state; x] w) as [[state' fn'] w'].
    destruct (IH fn' state' w') as [Hv Hw]. rewrite Hv, Hw.
    destruct (scan_spec fn' state' l w') as [rest w'']. cbn [fst snd].
    split; [| reflexivity].
    symmetry. apply last_cons_default.
Qed.

Lemma scan_spec_length l : forall fn (state : value) w,
  length (fst (scan_spec fn state l w)) = length l.
Proof.
  induction l as [|x l IH]; intros fn state w; cbn [scan_spec]; [reflexivity |].
  destruct (applied fn [state; x] w) as [[state' fn'] w'].
  specialize (IH fn' state' w').
  destruct (scan_spec fn' state' l w') as [rest w'']. simpl in *. rewrite IH. reflexivity.
Qed.

(** *** skip: the counting predicate holds on the first [num] calls *)

Lemma skip_counter_spec (num : Z) l : forall (c : Z) w,
  skipWhile_spec (skip_counter num c) l w = skipn (Z.to_nat (num - c)) l
  /\ snd (calls (skip_counter num c) l w) = w.
Proof.
  induction l as [|x l IH]; intros c w.
  - split; [| reflexivity]. simpl. rewrite skipn_nil. reflexivity.
  - cbn [skipWhile_spec calls].
    change (applied (skip_counter num c) [x] w)
      with (VBool (c + 1 <=? num)%Z, @skip_counter W num (c + 1), w).
    cbv beta iota. cbn [truthy].
    destruct (IH (c + 1)%Z w) as [Hs Hw].
    destruct (calls (skip_counter num (c + 1)) l w) as [[vs p'] w'] eqn:Hc.
    cbn [snd] in *. split; [| exact Hw].
    destruct (Z.leb_spec (c + 1) num).
    + rewrite Hs.
      replace (Z.to_nat (num - c)) with (Datatypes.S (Z.to_nat (num - (c + 1)))) by lia.
      reflexivity.
    + replace (Z.to_nat (num - c)) with 0 by lia. reflexivity.
Qed.

(** *** cycle over a buffer that is not empty *)

Lemma cycle_prefix (item : list value) (n : nat) : forall (k j : nat),
  item <> [] ->
  j <= length item ->
  j mod length item = k mod length item ->
  exists i',
    emits_prefix (W := W) (cycle_next item) (Z.of_nat j)
      (List.map (fun i => List.nth (i mod length item) item VUndefined) (List.seq k n))
      i'.
Proof.
  induction n as [|n IH]; intros k j Hne Hj Hmod.
  - eexists. reflexivity.
  - assert (Hlen : 0 < length item) by (destruct item; [congruence | simpl; lia]).
    destruct (IH (Datatypes.S k) (Datatypes.S (j mod length item)) Hne) as [i' Hi'].
    + pose proof (Nat.mod_upper_bound j (length item)). lia.
    + rewrite Hmod.
      replace (Datatypes.S (k mod length item)) with (k mod length item + 1) by lia.
      replace (Datatypes.S k) with (k + 1) by lia.
      rewrite Nat.Div0.add_mod_idemp_l. reflexivity.
    + exists i'. cbn [List.seq List.map emits_prefix].
      exists (Z.of_nat (Datatypes.S (j mod length item))). split; [| exact Hi'].
      intros w. unfold cycle_next, ret.
      assert (Hi : (if (Z.of_nat j >? Z.of_nat (length item) - 1)%Z then 0%Z else Z.of_nat j)
                   = Z.of_nat (j mod length item)).
      { destruct (Z.gtb_spec (Z.of_nat j) (Z.of_nat (length item) - 1)).
        - assert (j = length item) by lia. subst j. rewrite Nat.Div0.mod_same. reflexivity.
        - rewrite Nat.mod_small by lia. reflexivity. }
      rewrite Hi, Nat2Z.id, <- Hmod.
      replace (Z.of_nat (j mod length item) + 1)%Z
        with (Z.of_nat (Datatypes.S (j mod length item))) by lia.
      reflexivity.
Qed.

Lemma cycle_elements_S (item : list value) (n : nat) :
  cycle_elements item (Datatypes.S n)
  = cycle_elements item n ++ [List.nth (n mod length item) item VUndefined].
Proof.
  unfold cycle_elements. rewrite seq_S, List.map_app. reflexivity.
Qed.

Lemma cycle_elements_length (item : list value) (n : nat) :
  length (cycle_elements item n) = n.
Proof. unfold cycle_elements. rewrite length_map, length_seq. reflexivity. Qed.

Lemma cycle_elements_single (v : value) (n : nat) :
  cycle_elements [v] n = List.repeat v n.
Proof.
  unfold cycle_elements. cbn [length].
  assert (H : forall k,
             List.map (fun i => List.nth (i mod 1) [v] VUndefined) (List.seq k n)
             = List.repeat v n).
  { induction n as [|n IH]; intros k; [reflexivity |].
    cbn [List.seq List.map List.repeat]. rewrite IH, Nat.mod_1_r. reflexivity. }
  apply H.
Qed.

(** *** map with a callback that leaves the world alone *)

Lemma emits_map {S : Type} (nxt : S -> M W (option value * S))
    (f : list value -> value) l : forall (s e : S),
  emits nxt s l e ->
  emits (map_next nxt) (Frame (pure_fn f) s false) (List.map (fun x => f [x]) l)
        (Frame (pure_fn f) e true).
Proof.
  induction l as [|x l IH]; intros s e Hem; simpl in Hem; cbn [List.map emits].
  - intros w. unfold map_next, bind. cbn [finished callee upstream].
    rewrite Hem. reflexivity.
  - destruct Hem as [s1 [Hx Hl]].
    exists (Frame (pure_fn f) s1 false). split; [| apply IH, Hl].
    intros w. unfold map_next, bind. cbn [finished callee upstream].
    rewrite Hx. reflexivity.
Qed.

(** *** take over map: [fn] runs on the pulled elements only *)

Lemma take_map_runs {S : Type} (nxt : S -> M W (option value * S)) (num : Z) l :
  forall (s e : S) fn (c : Z) w,
  emits nxt s l e ->
  exists st,
    runs (takeWhile_next (map_next nxt))
         (Frame (take_counter num c) (Frame fn s false) false) w
         (fst (fst (calls fn (firstn (Z.to_nat (num - c)) l) w))) st
         (snd (calls fn (firstn (Datatypes.S (Z.to_nat (num - c))) l) w)).
Proof.
  induction l as [|x l IH]; intros s e fn c w Hem; simpl in Hem.
  - rewrite !firstn_nil. eexists. simpl.
    unfold takeWhile_next, map_next, bind. cbn [finished callee upstream].
    rewrite Hem. reflexivity.
  - destruct Hem as [s1 [Hx Hl]].
    assert (Hstep : takeWhile_next (map_next nxt)
                      (Frame (take_counter num c) (Frame fn s false) false) w
                    = let '(v, fn', w') := applied fn [x] w in
                      if (c + 1 <? num + 1)%Z
                      then Return (Some v, Frame (take_counter num (c + 1))
                                                 (Frame fn' s1 false) false) w'
                      else Return (None, Frame (take_counter num (c + 1))
                                               (Frame fn' s1 false) true) w').
    { unfold takeWhile_next, bind. cbn [finished callee upstream].
      unfold map_next at 1, bind. cbn [finished callee upstream].
      rewrite Hx. cbv beta iota. rewrite call_apply.
      destruct (applied fn [x] w) as [[v fn'] w'].
      cbn -[Z.add Z.ltb].
      destruct (c + 1 <? num + 1)%Z; reflexivity. }
    destruct (applied fn [x] w) as [[v fn'] w'] eqn:Happ.
    destruct (Z.ltb_spec (c + 1) (num + 1)) as [Hlt | Hge].
    + destruct (IH s1 e fn' (c + 1)%Z w' Hl) as [st Hst].
      exists st.
      replace (Z.to_nat (num - c)) with (Datatypes.S (Z.to_nat (num - (c + 1)))) by lia.
      rewrite !firstn_cons. cbn [calls]. rewrite Happ.
      destruct (calls fn' (firstn (Z.to_nat (num - (c + 1))) l) w') as [[vs f2] w2].
      destruct (calls fn' (firstn (Datatypes.S (Z.to_nat (num - (c + 1)))) l) w')
        as [[vs3 f3] w3].
      cbn [fst snd runs] in *.
      exists (Frame (take_counter num (c + 1)) (Frame fn' s1 false) false), w'.
      split; [exact Hstep | exact Hst].
    + replace (Z.to_nat (num - c)) with 0 by lia.
      rewrite firstn_cons, !firstn_O. cbn [calls]. rewrite Happ.
      cbn [fst snd runs]. eexists. exact Hstep.
Qed.
End EagerLoops.

(** *** curry: the arguments in groups *)

Lemma call_each_groups (A R : Type) (fn : JsFunction A R) (groups : list (list A)) :
  forall (args : list A),
  groups <> [] ->
  (forall g, In g groups -> g <> []) ->
  length args + length (List.concat groups) = fn_length fn ->
  call_each fn (Partial args) groups = Result (fn_apply fn (args ++ List.concat groups)).
Proof.
  induction groups as [|g groups IH]; intros args Hne Hall Hlen; [congruence |].
  cbn [call_each List.fold_left List.concat call_curried] in *.
  unfold call_partial, curry.
  assert (Hg : g <> []) by (apply Hall; left; reflexivity).
  assert (0 < length g) by (destruct g; [congruence | simpl; lia]).
  rewrite length_app in Hlen.
  destruct groups as [|g' groups].
  - cbn [List.concat List.fold_left length] in *. rewrite app_nil_r.
    destruct (Nat.leb_spec (fn_length fn) (length (args ++ g))) as [_ | Hlt];
      [reflexivity | rewrite length_app in Hlt; lia].
  - assert (Hg' : g' <> []) by (apply Hall; right; left; reflexivity).
    assert (0 < length g') by (destruct g'; [congruence | simpl; lia]).
    cbn [List.concat] in Hlen. rewrite length_app in Hlen.
    destruct (Nat.leb_spec (fn_length fn) (length (args ++ g))) as [Hge | _];
      [rewrite length_app in Hge; lia |].
    change (List.fold_left (call_curried fn) (g' :: groups) (Partial (args ++ g)))
      with (call_each fn (Partial (args ++ g)) (g' :: groups)).
    rewrite IH.
    + rewrite <- app_assoc. reflexivity.
    + discriminate.
    + intros h Hh. apply Hall. right. exact Hh.
    + rewrite length_app. cbn [List.concat]. rewrite length_app. lia.
Qed.

(** * Properties of the other combinators *)

Ltac rewrite_loop_list H :=
  match type of H with
  | ?L = _ =>
    match goal with
    | |- context [loop_list ?b ?l ?a ?w] =>
      change (loop_list b l a w) with L; rewrite H
    end
  end.

(** Turn the eager loop of the goal into the loop over the elements [l]. *)
Ltac eager_loop l e Hem Hfuel :=
  match goal with
  | |- context [for_of ?n ?f ?b ?s ?a ?w] =>
    let st := fresh "st" in
    let Hst := fresh "Hst" in
    destruct (for_of_emits n b l s e a f w Hem Hfuel) as [st Hst];
    rewrite Hst; clear Hst
  end.

(** Pass the guard and get the iterator of a finite sequence. *)
Ltac enter Hens Hget :=
  unfold bind, ret;
  repeat (first [rewrite Hens | rewrite Hget]; cbv beta iota).

Section PureCallbacks.
Context {W : Type}.
Implicit Types (w : W) (l : list value) (f : list value -> value).

Lemma filter_spec_pure f l w :
  filter_spec (pure_fn f) l w = List.filter (fun x => truthy (f [x])) l.
Proof.
  induction l as [|x l IH]; [reflexivity |].
  cbn [filter_spec List.filter]. rewrite applied_pure, IH. reflexivity.
Qed.

Lemma all_spec_pure f l w :
  all_spec (pure_fn f) l w = (forallb (fun x => truthy (f [x])) l, w).
Proof.
  induction l as [|x l IH]; [reflexivity |].
  cbn [all_spec forallb]. rewrite applied_pure, IH.
  destruct (truthy (f [x])); reflexivity.
Qed.

Lemma some_spec_pure f l w :
  some_spec (pure_fn f) l w = (existsb (fun x => truthy (f [x])) l, w).
Proof.
  induction l as [|x l IH]; [reflexivity |].
  cbn [some_spec existsb]. rewrite applied_pure, IH.
  destruct (truthy (f [x])); reflexivity.
Qed.

Lemma find_spec_pure f l w :
  find_spec (pure_fn f) l w
  = (match List.find (fun x => truthy (f [x])) l with
     | Some x => x
     | None => VUndefined
     end, w).
Proof.
  induction l as [|x l IH]; [reflexivity |].
  cbn [find_spec List.find]. rewrite applied_pure, IH.
  destruct (truthy (f [x])); reflexivity.
Qed.

Lemma find_map_spec_pure f l w :
  find_map_spec (pure_fn f) l w
  = (match List.find truthy (List.map (fun x => f [x]) l) with
     | Some r => r
     | None => VUndefined
     end, w).
Proof.
  induction l as [|x l IH]; [reflexivity |].
  cbn [find_map_spec List.find List.map]. rewrite applied_pure, IH.
  destruct (truthy (f [x])); reflexivity.
Qed.

Lemma fold_spec_pure f l : forall (state : value) w,
  fold_spec (pure_fn f) state l w
  = (List.fold_left (fun acc x => f [acc; x]) l state, w).
Proof.
  induction l as [|x l IH]; intros state w; [reflexivity |].
  cbn [fold_spec List.fold_left]. rewrite applied_pure. apply IH.
Qed.

Lemma takeWhile_spec_pure_all f l w :
  Forall (fun y => truthy (f [y]) = true) l ->
  takeWhile_spec (pure_fn f) l w = (l, w).
Proof.
  induction 1 as [|y l Hy Hl IH]; [reflexivity |].
  cbn [takeWhile_spec]. rewrite applied_pure, Hy, IH. reflexivity.
Qed.

Lemma takeWhile_spec_pure_stop f (prefix : list value) (x : value) (rest : list value) w :
  Forall (fun y => truthy (f [y]) = true) prefix ->
  truthy (f [x]) = false ->
  takeWhile_spec (pure_fn f) (prefix ++ x :: rest) w = (prefix, w).
Proof.
  intros Hpre Hx. induction Hpre as [|y l Hy Hl IH].
  - cbn [app takeWhile_spec]. rewrite applied_pure, Hx. reflexivity.
  - cbn [app takeWhile_spec]. rewrite applied_pure, Hy, IH. reflexivity.
Qed.

Lemma takeWhile_spec_prefix pred l : forall w,
  exists rest, l = fst (takeWhile_spec pred l w) ++ rest.
Proof.
  revert pred. induction l as [|x l IH]; intros pred w; cbn [takeWhile_spec].
  - exists []. reflexivity.
  - destruct (applied pred [x] w) as [[p pred'] w'].
    destruct (truthy p).
    + destruct (IH pred' w') as [rest Hrest].
      destruct (takeWhile_spec pred' l w') as [taken w'']. cbn [fst] in *.
      exists rest. cbn [app]. rewrite <- Hrest. reflexivity.
    + exists (x :: l). reflexivity.
Qed.
End PureCallbacks.

Section Extras.
Context {W : Type}.
Implicit Types (w : W) (pred predMap fn : @Closure W) (iter : @arg W).

(** map(fn, s) collects to the results of fn on the elements of s, in
    order and as many; fn is called once on every element. *)
Theorem map_contract fn iter (s : list value) (fuel : nat) w :
  yields iter s ->
  length s < fuel ->
  collect_of fuel (map fn iter) w
  = Return (fst (fst (calls fn s w))) (snd (calls fn s w))
  /\ length (fst (fst (calls fn s w))) = length s
  /\ (forall f, collect_of fuel (map (pure_fn f) iter) w
                = Return (List.map (fun x => f [x]) s) w).
Proof.
  intros Hs Hfuel.
  destruct (yields_iterator iter s Hs) as [it [e [Hens [Hget Hem]]]].
  assert (H : forall g, collect_of fuel (map g iter) w
                        = Return (fst (fst (calls g s w))) (snd (calls g s w))).
  { intros g. unfold collect_of, map. enter Hens Hget.
    apply (collect_runs (mkIterator (Frame g (cur it) false) (map_next (next it)))
             _ (Frame (snd (fst (calls g s w))) e true) w).
    - apply map_runs, Hem.
    - rewrite calls_length. exact Hfuel. }
  split; [apply H | split; [apply calls_length |]].
  intros f. rewrite H, calls_pure. reflexivity.
Qed.

(** filter(pred, s) collects to the elements of s on which pred is
    truthy, in their order; pred is called once on every element. *)
Theorem filter_contract pred iter (s : list value) (fuel gas : nat) w :
  yields iter s ->
  length s < gas ->
  length s < fuel ->
  collect_of fuel (filter gas pred iter) w
  = Return (filter_spec pred s w) (snd (calls pred s w))
  /\ (forall f, collect_of fuel (filter gas (pure_fn f) iter) w
                = Return (List.filter (fun x => truthy (f [x])) s) w).
Proof.
  intros Hs Hgas Hfuel.
  destruct (yields_iterator iter s Hs) as [it [e [Hens [Hget Hem]]]].
  assert (Hlen : forall g w0, length (filter_spec g s w0) <= length s).
  { clear. induction s as [|x l IH]; intros g w0; cbn [filter_spec length]; [lia |].
    destruct (applied g [x] w0) as [[p g'] w1].
    specialize (IH g' w1). destruct (truthy p); cbn [length]; lia. }
  assert (H : forall g, collect_of fuel (filter gas g iter) w
                        = Return (filter_spec g s w) (snd (calls g s w))).
  { intros g. unfold collect_of, filter. enter Hens Hget.
    apply (collect_runs (mkIterator (Frame g (cur it) false) (filter_next (next it) gas))
             _ (Frame (snd (fst (calls g s w))) e true) w).
    - apply filter_runs; assumption.
    - specialize (Hlen g w). lia. }
  split; [apply H |].
  intros f. rewrite H, calls_pure, filter_spec_pure. reflexivity.
Qed.

(** all(pred, s) is false at the first element on which pred is falsy,
    without calling pred again, and true when there is none, so true for
    an empty s. *)
Theorem all_contract pred iter (s : list value) (fuel : nat) w :
  yields iter s ->
  length s < fuel ->
  all fuel pred iter w = Return (fst (all_spec pred s w)) (snd (all_spec pred s w))
  /\ (forall f, all fuel (pure_fn f) iter w
                = Return (forallb (fun x => truthy (f [x])) s) w).
Proof.
  intros Hs Hfuel.
  destruct (yields_iterator iter s Hs) as [it [e [Hens [Hget Hem]]]].
  assert (H : forall g, all fuel g iter w
                        = Return (fst (all_spec g s w)) (snd (all_spec g s w))).
  { intros g. unfold all. enter Hens Hget.
    eager_loop s e Hem Hfuel.
    destruct (all_loop s g w) as [fl [Hrun Hres]].
    rewrite_loop_list Hrun. rewrite <- Hres. destruct fl; reflexivity. }
  split; [apply H |].
  intros f. rewrite H, all_spec_pure. reflexivity.
Qed.

(** some(pred, s) is true at the first element on which pred is truthy,
    without calling pred again, and false when there is none. *)
Theorem some_contract pred iter (s : list value) (fuel : nat) w :
  yields iter s ->
  length s < fuel ->
  some fuel pred iter w = Return (fst (some_spec pred s w)) (snd (some_spec pred s w))
  /\ (forall f, some fuel (pure_fn f) iter w
                = Return (existsb (fun x => truthy (f [x])) s) w).
Proof.
  intros Hs Hfuel.
  destruct (yields_iterator iter s Hs) as [it [e [Hens [Hget Hem]]]].
  assert (H : forall g, some fuel g iter w
                        = Return (fst (some_spec g s w)) (snd (some_spec g s w))).
  { intros g. unfold some. enter Hens Hget.
    eager_loop s e Hem Hfuel.
    destruct (some_loop s g w) as [fl [Hrun Hres]].
    rewrite_loop_list Hrun. rewrite <- Hres. destruct fl; reflexivity. }
  split; [apply H |].
  intros f. rewrite H, some_spec_pure. reflexivity.
Qed.

(** chain(s1, s2) collects to the elements of s1 followed by those of
    s2. *)
Theorem chain_contract (iter1 iter2 : @arg W) (s1 s2 : list value) (fuel : nat) w :
  yields iter1 s1 ->
  yields iter2 s2 ->
  length s1 + length s2 < fuel ->
  collect_of fuel (chain iter1 iter2) w = Return (s1 ++ s2) w.
Proof.
  intros H1 H2 Hfuel.
  destruct (yields_iterator iter1 s1 H1) as [it1 [e1 [He1 [Hg1 Hem1]]]].
  destruct (yields_iterator iter2 s2 H2) as [it2 [e2 [He2 [Hg2 Hem2]]]].
  unfold collect_of, chain. unfold bind, ret.
  repeat (first [rewrite He1 | rewrite He2 | rewrite Hg1 | rewrite Hg2]; cbv beta iota).
  apply (collect_runs (mkIterator (ChainFirst, cur it1, cur it2)
                                  (chain_next (next it1) (next it2)))
           _ (ChainDone, e1, e2) w).
  - apply chain_runs; assumption.
  - rewrite length_app. exact Hfuel.
Qed.

(** collect(s) is the list of the elements of s, and count(s) is their
    number. *)
Theorem collect_count_contract iter (s : list value) (fuel : nat) w :
  yields iter s ->
  length s < fuel ->
  collect fuel iter w = Return s w
  /\ count fuel iter w = Return (Z.of_nat (length s)) w.
Proof.
  intros Hs Hfuel.
  destruct (yields_iterator iter s Hs) as [it [e [Hens [Hget Hem]]]].
  split.
  - unfold collect, spread. enter Hens Hget.
    pose proof (for_of_runs (next it) s (cur it) e w w [] fuel
                  (emits_runs _ s _ _ w Hem) Hfuel) as Hrun.
    rewrite_for_of Hrun. reflexivity.
  - unfold count. enter Hens Hget.
    eager_loop s e Hem Hfuel.
    rewrite count_loop. reflexivity.
Qed.

(** takeWhile(pred, s) collects to the elements of s before the first one
    on which pred is falsy, a prefix of s; pred is not called after that
    element.  When pred holds everywhere it collects to s. *)
Theorem takeWhile_contract pred iter (s : list value) (fuel : nat) w :
  yields iter s ->
  length s < fuel ->
  collect_of fuel (takeWhile pred iter) w
  = Return (fst (takeWhile_spec pred s w)) (snd (takeWhile_spec pred s w))
  /\ (exists rest, s = fst (takeWhile_spec pred s w) ++ rest)
  /\ (forall f prefix x rest,
         s = prefix ++ x :: rest ->
         Forall (fun y => truthy (f [y]) = true) prefix ->
         truthy (f [x]) = false ->
         collect_of fuel (takeWhile (pure_fn f) iter) w = Return prefix w)
  /\ (forall f,
         Forall (fun y => truthy (f [y]) = true) s ->
         collect_of fuel (takeWhile (pure_fn f) iter) w = Return s w).
Proof.
  intros Hs Hfuel.
  destruct (yields_iterator iter s Hs) as [it [e [Hens [Hget Hem]]]].
  assert (H : forall g, collect_of fuel (takeWhile g iter) w
                        = Return (fst (takeWhile_spec g s w))
                                 (snd (takeWhile_spec g s w))).
  { intros g. unfold collect_of, takeWhile. enter Hens Hget.
    destruct (takeWhile_runs _ (next it) s (cur it) e g w Hem) as [st Hst].
    apply (collect_runs (mkIterator (Frame g (cur it) false) (takeWhile_next (next it)))
             _ st w).
    - exact Hst.
    - destruct (takeWhile_spec_prefix g s w) as [rest Hrest].
      apply (f_equal (@length value)) in Hrest. rewrite length_app in Hrest. lia. }
  split; [apply H | split; [apply takeWhile_spec_prefix | split]].
  - intros f prefix x rest -> Hpre Hx.
    rewrite H, takeWhile_spec_pure_stop by assumption. reflexivity.
  - intros f Hall. rewrite H, takeWhile_spec_pure_all by assumption. reflexivity.
Qed.

(** enumerate(s) collects to the pairs [item, index], the element first
    and the index counted from 0. *)
Theorem enumerate_contract iter (s : list value) (fuel : nat) w :
  yields iter s ->
  length s < fuel ->
  collect_of fuel (enumerate iter) w = Return (enumerate_spec s) w
  /\ length (enumerate_spec s) = length s
  /\ (forall k, k < length s ->
                List.nth k (enumerate_spec s) VUndefined
                = VArr [List.nth k s VUndefined; VNum (Z.of_nat k)]).
Proof.
  intros Hs Hfuel.
  destruct (yields_iterator iter s Hs) as [it [e [Hens [Hget Hem]]]].
  assert (Hlen : length (enumerate_spec s) = length s).
  { unfold enumerate_spec. rewrite length_map, length_combine, length_seq. lia. }
  split; [| split; [exact Hlen |]].
  - unfold collect_of, enumerate. enter Hens Hget.
    apply (collect_runs (mkIterator (EnumSt 0%Z (cur it) false) (enumerate_next (next it)))
             _ (EnumSt (Z.of_nat (0 + length s)) e true) w).
    + apply (enumerate_runs _ (next it) s (cur it) e 0 w Hem).
    + rewrite Hlen. exact Hfuel.
  - intros k Hk. unfold enumerate_spec.
    rewrite (nth_indep _ VUndefined (VArr [VUndefined; VNum (Z.of_nat 0)]))
      by (rewrite length_map, length_combine, length_seq; lia).
    exact (eq_trans
             (map_nth (fun p => VArr [fst p; VNum (Z.of_nat (snd p))])
                      (List.combine s (List.seq 0 (length s))) (VUndefined, 0) k)
             ltac:(rewrite combine_nth by (rewrite length_seq; reflexivity);
                   rewrite seq_nth by exact Hk; reflexivity)).
Qed.

(** find(pred, s) is the first element of s on which pred is truthy, and
    pred is not called again; it is undefined when there is none. *)
Theorem find_contract pred iter (s : list value) (fuel : nat) w :
  yields iter s ->
  length s < fuel ->
  find fuel pred iter w = Return (fst (find_spec pred s w)) (snd (find_spec pred s w))
  /\ (forall f, find fuel (pure_fn f) iter w
                = Return (match List.find (fun x => truthy (f [x])) s with
                          | Some x => x
                          | None => VUndefined
                          end) w).
Proof.
  intros Hs Hfuel.
  destruct (yields_iterator iter s Hs) as [it [e [Hens [Hget Hem]]]].
  assert (H : forall g, find fuel g iter w
                        = Return (fst (find_spec g s w)) (snd (find_spec g s w))).
  { intros g. unfold find. enter Hens Hget.
    eager_loop s e Hem Hfuel.
    destruct (find_loop s g w) as [fl [Hrun Hres]].
    rewrite_loop_list Hrun. rewrite <- Hres. destruct fl; reflexivity. }
  split; [apply H |].
  intros f. rewrite H, find_spec_pure. reflexivity.
Qed.

(** find_map(predMap, s) is the first truthy result of predMap on the
    elements of s, and predMap is not called again; it is undefined when
    there is none. *)
Theorem find_map_contract predMap iter (s : list value) (fuel : nat) w :
  yields iter s ->
  length s < fuel ->
  find_map fuel predMap iter w
  = Return (fst (find_map_spec predMap s w)) (snd (find_map_spec predMap s w))
  /\ (forall f, find_map fuel (pure_fn f) iter w
                = Return (match List.find truthy (List.map (fun x => f [x]) s) with
                          | Some r => r
                          | None => VUndefined
                          end) w).
Proof.
  intros Hs Hfuel.
  destruct (yields_iterator iter s Hs) as [it [e [Hens [Hget Hem]]]].
  assert (H : forall g, find_map fuel g iter w
                        = Return (fst (find_map_spec g s w)) (snd (find_map_spec g s w))).
  { intros g. unfold find_map. enter Hens Hget.
    eager_loop s e Hem Hfuel.
    destruct (find_map_loop s g w) as [fl [Hrun Hres]].
    rewrite_loop_list Hrun. rewrite <- Hres. destruct fl; reflexivity. }
  split; [apply H |].
  intros f. rewrite H, find_map_spec_pure. reflexivity.
Qed.



(** tap(fn, s) collects to the elements of s unchanged, whatever fn
    returns; fn is called once on every element, in order. *)
Theorem tap_contract fn iter (s : list value) (fuel : nat) w :
  yields iter s ->
  length s < fuel ->
  collect_of fuel (tap fn iter) w = Return s (snd (calls fn s w)).
Proof.
  intros Hs Hfuel.
  destruct (yields_iterator iter s Hs) as [it [e [Hens [Hget Hem]]]].
  unfold collect_of, tap. enter Hens Hget.
  apply (collect_runs (mkIterator (Frame fn (cur it) false) (tap_next (next it)))
           _ (Frame (snd (fst (calls fn s w))) e true) w).
  - apply tap_runs, Hem.
  - exact Hfuel.
Qed.

(** nth(index, s) is the element of s at position index counted from 0,
    and undefined when index is negative or not below the length of s. *)
Theorem nth_contract (index : Z) iter (s : list value) (fuel : nat) w :
  yields iter s ->
  length s < fuel ->
  ((0 <= index < Z.of_nat (length s))%Z ->
   nth fuel index iter w = Return (List.nth (Z.to_nat index) s VUndefined) w)
  /\ ((index < 0 \/ Z.of_nat (length s) <= index)%Z ->
      nth fuel index iter w = Return VUndefined w).
Proof.
  intros Hs Hfuel.
  destruct (yields_iterator iter s Hs) as [it [e [Hens [Hget Hem]]]].
  assert (Hpos : (0 <= index)%Z ->
                 nth fuel index iter w = Return (List.nth (Z.to_nat index) s VUndefined) w).
  { intros Hi. unfold nth. enter Hens Hget.
    eager_loop s e Hem Hfuel.
    destruct (nth_loop index s 0%Z w Hi) as [fl [Hrun Hres]].
    rewrite_loop_list Hrun. rewrite Z.sub_0_r in Hres. rewrite <- Hres.
    destruct fl; reflexivity. }
  split.
  - intros [Hi _]. apply Hpos, Hi.
  - intros [Hneg | Hbig].
    + unfold nth. enter Hens Hget.
      eager_loop s e Hem Hfuel.
      destruct (nth_loop_negative index s 0%Z w Hneg) as [i' Hrun].
      rewrite_loop_list Hrun. reflexivity.
    + rewrite Hpos by lia. rewrite nth_overflow by lia. reflexivity.
Qed.

(** fold(fn, start, s) is the state after fn(state, item) on every
    element from the state start; for an empty s it is start. *)
Theorem fold_contract fn (start : value) iter (s : list value) (fuel : nat) w :
  yields iter s ->
  length s < fuel ->
  fold fuel fn start iter w
  = Return (fst (fold_spec fn start s w)) (snd (fold_spec fn start s w))
  /\ (forall f, fold fuel (pure_fn f) start iter w
                = Return (List.fold_left (fun acc x => f [acc; x]) s start) w).
Proof.
  intros Hs Hfuel.
  destruct (yields_iterator iter s Hs) as [it [e [Hens [Hget Hem]]]].
  assert (H : forall g, fold fuel g start iter w
                        = Return (fst (fold_spec g start s w)) (snd (fold_spec g start s w))).
  { intros g. unfold fold. enter Hens Hget.
    eager_loop s e Hem Hfuel.
    destruct (fold_loop s g start w) as [g' Hrun].
    rewrite_loop_list Hrun. reflexivity. }
  split; [apply H |].
  intros f. rewrite H, fold_spec_pure. reflexivity.
Qed.

(** scan(fn, start, s) collects to the states fold goes through, one for
    each element and never the seed; the last of them is what fold
    returns, in the same world. *)
Theorem scan_contract fn (start : value) iter (s : list value) (fuel : nat) w :
  yields iter s ->
  length s < fuel ->
  collect_of fuel (scan fn start iter) w
  = Return (fst (scan_spec fn start s w)) (snd (scan_spec fn start s w))
  /\ length (fst (scan_spec fn start s w)) = length s
  /\ fold fuel fn start iter w
     = Return (List.last (fst (scan_spec fn start s w)) start)
              (snd (scan_spec fn start s w)).
Proof.
  intros Hs Hfuel.
  destruct (yields_iterator iter s Hs) as [it [e [Hens [Hget Hem]]]].
  split; [| split; [apply scan_spec_length |]].
  - unfold collect_of, scan. enter Hens Hget.
    destruct (scan_runs _ (next it) s (cur it) e fn start w Hem) as [st Hst].
    apply (collect_runs (mkIterator (ScanSt fn start (cur it) false) (scan_next (next it)))
             _ st w).
    + exact Hst.
    + rewrite scan_spec_length. exact Hfuel.
  - destruct (fold_last_scan s fn start w) as [Hv Hw]. rewrite <- Hv, <- Hw.
    unfold fold. enter Hens Hget.
    eager_loop s e Hem Hfuel.
    destruct (fold_loop s fn start w) as [g' Hrun].
    rewrite_loop_list Hrun. reflexivity.
Qed.

Lemma collect_skip (n : Z) iter (s : list value) (fuel gas : nat) w :
  yields iter s ->
  length s < gas ->
  length s < fuel ->
  collect_of fuel (skip gas n iter) w = Return (skipn (Z.to_nat n) s) w.
Proof.
  intros Hs Hgas Hfuel.
  destruct (yields_iterator iter s Hs) as [it [e [Hens [Hget Hem]]]].
  destruct (skipWhile_for_of _ (next it) s (cur it) e (skip_counter n 0) [] fuel gas w
              Hem Hgas Hfuel) as [st Hst].
  destruct (skip_counter_spec n s 0%Z w) as [Hspec Hworld].
  rewrite Hspec, Hworld, Z.sub_0_r in Hst.
  cbv [collect_of skip skipWhile bind]. rewrite Hens, Hget.
  cbv [ret collect spread bind]. cbn -[for_of skipWhile_next skip_pred].
  cbv beta iota delta [St next cur].
  rewrite_for_of Hst. reflexivity.
Qed.

Lemma collect_take (n : Z) iter (s : list value) (fuel : nat) w :
  yields iter s ->
  length s < fuel ->
  collect_of fuel (take n iter) w = Return (firstn (Z.to_nat n) s) w.
Proof.
  intros Hs Hfuel.
  destruct (yields_iterator iter s Hs) as [it [e [Hens [Hget Hem]]]].
  destruct (take_for_of _ (next it) n s (cur it) e 0%Z [] fuel w Hem Hfuel) as [st Hst].
  cbv [collect_of take takeWhile bind]. rewrite Hens, Hget.
  cbv [ret collect spread bind]. cbn -[for_of takeWhile_next take_pred].
  cbv beta iota delta [St next cur].
  rewrite_for_of Hst. rewrite Z.sub_0_r. reflexivity.
Qed.

(** skip(n, s) collects to s without its first n elements: all of s for
    n <= 0 and nothing when n is at least the length of s. *)
Theorem skip_contract (n : Z) iter (s : list value) (fuel gas : nat) w :
  yields iter s ->
  length s < gas ->
  length s < fuel ->
  collect_of fuel (skip gas n iter) w = Return (skipn (Z.to_nat n) s) w
  /\ ((n <= 0)%Z -> collect_of fuel (skip gas n iter) w = Return s w)
  /\ ((Z.of_nat (length s) <= n)%Z -> collect_of fuel (skip gas n iter) w = Return [] w).
Proof.
  intros Hs Hgas Hfuel.
  pose proof (collect_skip n iter s fuel gas w Hs Hgas Hfuel) as H.
  split; [exact H | split]; intros Hn; rewrite H.
  - replace (Z.to_nat n) with 0 by lia. reflexivity.
  - rewrite skipn_all2 by lia. reflexivity.
Qed.

(** Over an array s, what take(n, s) collects followed by what
    skip(n, s) collects is s. *)
Theorem take_skip_partition (n : Z) (s : list value) (fuel gas : nat) w :
  length s < gas ->
  length s < fuel ->
  exists taken skipped,
    collect_of fuel (take n (Val (VArr s))) w = Return taken w
    /\ collect_of fuel (skip gas n (Val (VArr s))) w = Return skipped w
    /\ taken ++ skipped = s.
Proof.
  intros Hgas Hfuel.
  exists (firstn (Z.to_nat n) s), (skipn (Z.to_nat n) s). split; [| split].
  - apply collect_take; [reflexivity | exact Hfuel].
  - apply collect_skip; [reflexivity | assumption ..].
  - apply firstn_skipn.
Qed.

(** empty() has no element and once(v) has the one element v. *)
Theorem empty_once_contract (v : value) (fuel : nat) w :
  yields (W := W) (Gen empty) []
  /\ yields (W := W) (Gen (once v)) [v]
  /\ collect (Datatypes.S fuel) (Gen empty) w = Return [] w
  /\ collect (Datatypes.S (Datatypes.S fuel)) (Gen (once v)) w = Return [v] w
  /\ count (Datatypes.S (Datatypes.S fuel)) (Gen (once v)) w = Return 1%Z w.
Proof.
  split; [| split; [| split; [| split]]]; try reflexivity.
  - exists tt. intros w0. reflexivity.
  - exists true. simpl. exists true. split; intros; reflexivity.
Qed.

Lemma take_cycle (n : Z) (item : list value) (fuel : nat) w :
  item <> [] ->
  (0 <= n)%Z ->
  Z.to_nat n < fuel ->
  collect_of fuel (take n (Gen (mkIterator 0%Z (cycle_next item)))) w
  = Return (cycle_elements item (Z.to_nat n)) w.
Proof.
  intros Hne Hn Hfuel.
  destruct (cycle_prefix (W := W) item (Datatypes.S (Z.to_nat n)) 0 0 Hne) as [i' Hi'];
    [lia | reflexivity |].
  change (List.map _ (List.seq 0 (Datatypes.S (Z.to_nat n))))
    with (cycle_elements item (Datatypes.S (Z.to_nat n))) in Hi'.
  rewrite cycle_elements_S in Hi'.
  pose proof (take_prefix_runs _ (cycle_next item) n (cycle_elements item (Z.to_nat n))
                (Z.of_nat 0) i' _ 0%Z w Hi') as Hrun.
  rewrite cycle_elements_length in Hrun. specialize (Hrun ltac:(lia)).
  unfold collect_of, take, takeWhile, bind.
  change (ensureIterator (Gen (mkIterator 0%Z (cycle_next item))) w) with (Return tt w).
  cbv beta iota. unfold GetIterator, ret.
  apply (collect_runs
           (mkIterator (Frame (take_pred n) 0%Z false) (takeWhile_next (cycle_next item)))
           _ _ w w fuel Hrun).
  rewrite cycle_elements_length. exact Hfuel.
Qed.

(** cycle(s) materializes s when it is called, and for an s that is not
    empty the generator it returns never ends: its k-th element is the
    element of s at position k modulo the length of s.  Taking n elements
    collects the first n of them. *)
Theorem cycle_contract (n : Z) iter (s : list value) (fuel fuel' : nat) w :
  yields iter s ->
  s <> [] ->
  length s < fuel ->
  (0 <= n)%Z ->
  Z.to_nat n < fuel' ->
  cycle fuel iter w = Return (mkIterator 0%Z (cycle_next s)) w
  /\ (forall k, exists st, emits_prefix (W := W) (cycle_next s) 0%Z (cycle_elements s k) st)
  /\ (c <- cycle fuel iter ;; collect_of fuel' (take n (Gen c))) w
     = Return (cycle_elements s (Z.to_nat n)) w
  /\ (forall k, k < Z.to_nat n ->
                List.nth k (cycle_elements s (Z.to_nat n)) VUndefined
                = List.nth (k mod length s) s VUndefined).
Proof.
  intros Hs Hne Hfuel Hn Hfuel'.
  destruct (yields_iterator iter s Hs) as [it [e [Hens [Hget Hem]]]].
  assert (Hcycle : cycle fuel iter w = Return (mkIterator 0%Z (cycle_next s)) w).
  { unfold cycle, collect, spread. enter Hens Hget.
    pose proof (for_of_runs (next it) s (cur it) e w w [] fuel
                  (emits_runs _ s _ _ w Hem) Hfuel) as Hrun.
    rewrite_for_of Hrun. reflexivity. }
  split; [exact Hcycle | split; [| split]].
  - intros k. apply (cycle_prefix s k 0 0 Hne); [lia | reflexivity].
  - unfold bind at 1. rewrite Hcycle. apply take_cycle; assumption.
  - intros k Hk. unfold cycle_elements.
    rewrite (nth_indep _ VUndefined (List.nth (0 mod length s) s VUndefined))
      by (rewrite length_map, length_seq; exact Hk).
    exact (eq_trans
             (map_nth (fun i => List.nth (i mod length s) s VUndefined)
                      (List.seq 0 (Z.to_nat n)) 0 k)
             ltac:(rewrite seq_nth by exact Hk; reflexivity)).
Qed.

(** repeat(v) never ends and every element of it is v. *)
Theorem repeat_contract (v : value) (n : Z) (fuel fuel' : nat) w :
  1 < fuel ->
  (0 <= n)%Z ->
  Z.to_nat n < fuel' ->
  repeat fuel v w = Return (mkIterator 0%Z (cycle_next [v])) w
  /\ (c <- repeat fuel v ;; collect_of fuel' (take n (Gen c))) w
     = Return (List.repeat v (Z.to_nat n)) w.
Proof.
  intros Hfuel Hn Hfuel'.
  assert (Hrep : repeat fuel v w = Return (mkIterator 0%Z (cycle_next [v])) w).
  { destruct fuel as [|[|fuel]]; try lia. reflexivity. }
  split; [exact Hrep |].
  unfold bind at 1. rewrite Hrep, take_cycle by (assumption || discriminate).
  rewrite cycle_elements_single. reflexivity.
Qed.

(** isIterator never throws: it is true on arrays and generator objects
    and false on every other value, the TypeError of [in] on a primitive
    being caught. *)
Theorem isIterator_contract (a : @arg W) w :
  isIterator a w = Return (is_sequence a) w
  /\ (forall v, is_sequence (W := W) (Val v) = true <-> exists items, v = VArr items)
  /\ (forall it : @Iterator W, is_sequence (Gen it) = true).
Proof.
  split; [apply isIterator_total | split; [| reflexivity]].
  intros v. split.
  - destruct v; try discriminate. intros _. eexists; reflexivity.
  - intros [items ->]. reflexivity.
Qed.

(** A combinator that returns a generator does no work when it is called
    on iterables: the call returns the generator and leaves the world as
    it is, so nothing is pulled and no callback runs before the first
    advance. *)
Theorem lazy_construction (fuel : nat) (c : @invocation W) w :
  is_lazy c = true ->
  (forall a, In a (sequence_arguments c) -> is_sequence a = true) ->
  exists it, invoke fuel c w = Return (RIter it) w.
Proof.
  intros Hlazy Hseq.
  destruct c; try discriminate Hlazy; cbn [sequence_arguments] in Hseq;
    repeat match goal with
           | H : forall a, In a [?i] -> _ |- _ =>
             let Hi := fresh "Hi" in
             assert (Hi : is_sequence i = true) by (apply H; left; reflexivity);
             clear H
           | H : forall a, In a [?i; ?j] -> _ |- _ =>
             let Hi := fresh "Hi" in
             let Hj := fresh "Hj" in
             assert (Hi : is_sequence i = true) by (apply H; left; reflexivity);
             assert (Hj : is_sequence j = true) by (apply H; right; left; reflexivity);
             clear H
           end;
    repeat match goal with
           | H : is_sequence ?i = true |- _ =>
             let it := fresh "it" in
             let Hg := fresh "Hg" in
             destruct (GetIterator_returns i H) as [it Hg];
             pose proof (fun w => ensureIterator_passes i w H);
             clear H
           end;
    cbv [invoke as_iter chain map filter filter_map take takeWhile enumerate flatMap
         flatten tap scan skipWhile skip zip bind ret];
    repeat (match goal with
            | H : forall w, ensureIterator _ w = _ |- _ => rewrite H
            | H : forall w, GetIterator _ w = _ |- _ => rewrite H
            end; cbv beta iota);
    eexists; reflexivity.
Qed.

(** Mapping twice with callbacks that leave the world alone is mapping
    once with their composition. *)
Theorem map_fusion (f g : list value -> value) iter (s : list value) (fuel : nat) w :
  yields iter s ->
  length s < fuel ->
  collect_of fuel (m <- map (pure_fn f) iter ;; map (pure_fn g) (Gen m)) w
  = Return (List.map (fun x => g [f [x]]) s) w.
Proof.
  intros Hs Hfuel.
  destruct (yields_iterator iter s Hs) as [it [e [Hens [Hget Hem]]]].
  unfold collect_of, map. enter Hens Hget.
  change (ensureIterator (Gen ?x) w) with (Return tt w). cbv beta iota.
  unfold GetIterator. cbv beta iota.
  pose proof (emits_map (next it) f s (cur it) e Hem) as Hm.
  pose proof (map_runs _ _ _ _ _ (pure_fn g) w Hm) as Hrun.
  rewrite calls_pure in Hrun. cbn [fst snd] in Hrun. rewrite List.map_map in Hrun.
  eapply (collect_runs (mkIterator _ _)); [exact Hrun |].
  rewrite length_map. exact Hfuel.
Qed.

(** take(n, map(fn, s)) is lazy: it collects to the results of fn on the
    first n elements of s, and fn has run on the first n + 1 elements of
    s only. *)
Theorem take_map_is_lazy (n : Z) fn iter (s : list value) (fuel : nat) w :
  (0 <= n)%Z ->
  yields iter s ->
  length s < fuel ->
  (m <- map fn iter ;; collect_of fuel (take n (Gen m))) w
  = Return (fst (fst (calls fn (firstn (Z.to_nat n) s) w)))
           (snd (calls fn (firstn (Datatypes.S (Z.to_nat n)) s) w)).
Proof.
  intros Hn Hs Hfuel.
  destruct (yields_iterator iter s Hs) as [it [e [Hens [Hget Hem]]]].
  unfold collect_of, map, take, takeWhile. enter Hens Hget.
  change (ensureIterator (Gen ?x) w) with (Return tt w). cbv beta iota.
  unfold GetIterator. cbv beta iota.
  destruct (take_map_runs (next it) n s (cur it) e fn 0%Z w Hem) as [st Hst].
  rewrite Z.sub_0_r in Hst.
  eapply (collect_runs (mkIterator _ _)); [exact Hst |].
  rewrite calls_length, length_firstn. lia.
Qed.
End Extras.

(** The arguments of a curried function may come in any number of calls:
    n arguments supplied in non-empty groups give the result of the
    function on all of them in order.  A call without arguments leaves a
    partial wrapper as it is. *)
Theorem curry_groups (A R : Type) (fn : JsFunction A R) (groups : list (list A)) :
  groups <> [] ->
  (forall g, In g groups -> g <> []) ->
  length (List.concat groups) = fn_length fn ->
  call_each fn (Partial []) groups = Result (fn_apply fn (List.concat groups))
  /\ (forall args, length args < fn_length fn ->
                   call_curried fn (curry fn args) [] = curry fn args).
Proof.
  intros Hne Hall Hlen. split.
  - apply (call_each_groups A R fn groups [] Hne Hall). exact Hlen.
  - intros args Hk. unfold curry.
    destruct (Nat.leb_spec (fn_length fn) (length args)); [lia |].
    cbn [call_curried]. unfold call_partial, curry. rewrite app_nil_r.
    destruct (Nat.leb_spec (fn_length fn) (length args)); [lia | reflexivity].
Qed.
(** * Runs on concrete inputs *)

(** ** The tests of the repository on the model *)

Example test_all_returns_early :
  all 4 (logging (VBool false)) (arr [1; 2; 3]%Z) [] = Return false [[VNum 1]].
Proof. reflexivity. Qed.

Example test_some_returns_early :
  some 4 (logging (VBool true)) (arr [1; 2; 3]%Z) [] = Return true [[VNum 1]].
Proof. reflexivity. Qed.

Example test_chain :
  collect_of (W := unit) 3 (chain (arr [1%Z]) (arr [2%Z])) tt = Return (nums [1; 2]%Z) tt.
Proof. reflexivity. Qed.

Example test_cycle_take_10 :
  (it <- cycle 4 (arr [1; 2; 3]%Z) ;; collect_of (W := unit) 11 (take 10 (Gen it))) tt
  = Return (nums [1; 2; 3; 1; 2; 3; 1; 2; 3; 1]%Z) tt.
Proof. reflexivity. Qed.

Example test_enumerate :
  collect_of (W := unit) 4 (enumerate (arr [1; 2; 3]%Z)) tt
  = Return [VArr (nums [1; 0]%Z); VArr (nums [2; 1]%Z); VArr (nums [3; 2]%Z)] tt.
Proof. reflexivity. Qed.

Example test_flatMap_nested :
  collect_of (W := unit) 5
    (flatMap 3 (pure_fn (fun args => VArr [List.nth 0 args VUndefined;
                                            List.nth 0 args VUndefined]))
             (arr [1; 2]%Z)) tt
  = Return (nums [1; 1; 2; 2]%Z) tt.
Proof. reflexivity. Qed.

Example test_flatMap_single :
  collect_of (W := unit) 3
    (flatMap 3 (pure_fn (fun args => match args with
                                     | VNum n :: _ => VNum (n + 1)
                                     | _ => VNaN
                                     end))
             (arr [1; 2]%Z)) tt
  = Return (nums [2; 3]%Z) tt.
Proof. reflexivity. Qed.

Example test_scan :
  collect_of (W := unit) 4
    (scan (pure_fn (fun args => match args with
                                | [VNum a; VNum c] => VNum (a + c)
                                | _ => VNaN
                                end))
          (VNum 0) (arr [1; 2; 3]%Z)) tt
  = Return (nums [1; 3; 6]%Z) tt.
Proof. reflexivity. Qed.

Example test_skip :
  collect_of (W := unit) 4 (skip 4 2 (arr [1; 2; 3]%Z)) tt = Return (nums [3%Z]) tt.
Proof. reflexivity. Qed.

Example test_nth_outside :
  nth (W := unit) 4 5 (arr [1; 2; 3]%Z) tt = Return VUndefined tt.
Proof. reflexivity. Qed.

Example test_repeat_take_1 :
  (it <- repeat 3 (VNum 1) ;; collect_of (W := unit) 2 (take 1 (Gen it))) tt
  = Return (nums [1%Z]) tt.
Proof. reflexivity. Qed.

Example test_eq_by_throws :
  eq_by (W := unit) 2 (pure_fn (fun _ => VBool true)) (arr [1%Z]) (Val (VNum 1)) tt
  = Throw new_NotIterator tt
  /\ instanceof new_NotIterator TypeError = true.
Proof. split; reflexivity. Qed.

(** zip pulls seq2 once for each element of seq1 while seq2 has elements,
    and once more to find it exhausted. *)
Example zip_pulls_of_seq2 :
  collect_of 4 (zip (arr [1%Z]) (Gen (counting (nums [3; 4; 5]%Z)))) 0
  = Return (nums [1; 3]%Z) 1
  /\ collect_of 8 (zip (arr [1; 2; 3; 4]%Z) (Gen (counting (nums [3%Z])))) 0
     = Return (nums [1; 3; 2; 3; 4]%Z) 2.
Proof. split; reflexivity. Qed.

(** ** The claims on concrete inputs *)

Lemma C1_eq_by_contract_witness :
  length (nums [1%Z]) < 2
  /\ eq_by (W := unit) 2 (pure_fn (fun _ => VBool true))
       (Gen (once (VNum 1))) (arr [2; 7; 8]%Z) tt
     = Return true tt.
Proof.
  assert (H : length (nums [1%Z]) < 2) by (simpl; lia).
  assert (Y1 : yields (W := unit) (Gen (once (VNum 1))) (nums [1%Z])).
  { exists true. simpl. exists true. split; intros; reflexivity. }
  assert (Y2 : yields (W := unit) (arr [2; 7; 8]%Z) (nums [2; 7; 8]%Z)) by reflexivity.
  split; [exact H |].
  exact (proj1 (proj2 (proj2 (C1_eq_by_contract (pure_fn (fun _ => VBool true))
                                (Gen (once (VNum 1))) (arr [2; 7; 8]%Z)
                                (nums [1%Z]) (nums [2; 7; 8]%Z) 2 tt Y1 Y2 H)))
               (nums [2%Z]) (nums [7; 8]%Z) _ tt eq_refl eq_refl).
Defined.

Lemma C2_zip_flat_interleave_witness :
  2 * length (nums [1; 2]%Z) < 5
  /\ collect_of (W := unit) 5
       (zip (Gen (array_iterator (nums [1; 2]%Z)))
            (Gen (array_iterator (nums [3; 4; 5]%Z)))) tt
     = Return (nums [1; 3; 2; 4]%Z) tt.
Proof.
  assert (H : 2 * length (nums [1; 2]%Z) < 5) by (simpl; lia).
  split; [exact H |].
  exact (proj1 (proj2 (proj2
           (C2_zip_flat_interleave
              (array_iterator (nums [1; 2]%Z)) (array_iterator (nums [3; 4; 5]%Z))
              (nums [1; 2]%Z) (nums [3; 4; 5]%Z) [] [] 5 tt
              (emits_array (nums [1; 2]%Z)) (emits_array (nums [3; 4; 5]%Z)) H)))).
Defined.

(** C4 (as stated). The error thrown for a number in an iterable position
    does not carry the message "Value is not a sequence". *)
Lemma C4_message_counterexample :
  exists e,
    invoke (W := unit) 0 (call_map identity (Val (VNum 1))) tt = Throw e tt
    /\ message e <> "Value is not a sequence"%string.
Proof. exists new_NotIterator. split; [reflexivity | discriminate]. Qed.

Lemma C4_guard_error_witness :
  exists e,
    invoke (W := unit) 0 (call_map identity (Val (VNum 1))) tt = Throw e tt
    /\ exn_class e = NotIterator
    /\ instanceof e TypeError = true
    /\ code e = Some 1%Z
    /\ message e = "Value is not an iterator"%string.
Proof.
  apply (C4_guard_error 0 (call_map identity (Val (VNum 1))) tt).
  exists (Val (VNum 1)). split; [left; reflexivity | reflexivity].
Defined.

Lemma C5_guard_is_synchronous_witness :
  invoke 3 (call_zip (Gen (counting (nums [1; 2]%Z))) (Val (VStr "123"))) 0
  = Throw new_NotIterator 0.
Proof.
  apply (C5_guard_is_synchronous 3
           (call_zip (Gen (counting (nums [1; 2]%Z))) (Val (VStr "123"))) 0).
  exists (Val (VStr "123")). split; [right; left; reflexivity | reflexivity].
Defined.

Lemma C6_take_length_witness :
  (0 <= 2)%Z /\ length (nums [1; 2; 3]%Z) < 4
  /\ collect_of (W := unit) 4 (take 2 (arr [1; 2; 3]%Z)) tt = Return (nums [1; 2]%Z) tt.
Proof.
  assert (Hn : (0 <= 2)%Z) by lia.
  assert (Hf : length (nums [1; 2; 3]%Z) < 4) by (simpl; lia).
  split; [exact Hn | split; [exact Hf |]].
  exact (proj1 (C6_take_length 2 (arr [1; 2; 3]%Z) (nums [1; 2; 3]%Z) 4 tt
                  Hn eq_refl Hf)).
Defined.

Lemma C7_skipWhile_contract_witness :
  length (nums [1; 2; 3]%Z) < 4
  /\ collect_of (W := unit) 4 (skipWhile 4 first_two_calls (arr [1; 2; 3]%Z)) tt
     = Return (nums [3%Z]) tt.
Proof.
  assert (H : length (nums [1; 2; 3]%Z) < 4) by (simpl; lia).
  split; [exact H |].
  exact (proj1 (C7_skipWhile_contract first_two_calls (arr [1; 2; 3]%Z)
                  (nums [1; 2; 3]%Z) 4 4 tt eq_refl H H)).
Defined.

Lemma C8_filter_map_contract_witness :
  length (nums [1; 2; 3]%Z) < 4
  /\ collect_of 4 (filter_map 4 haha_on_two (arr [1; 2; 3]%Z)) tt
     = Return [VStr "haha"] tt.
Proof.
  assert (H : length (nums [1; 2; 3]%Z) < 4) by (simpl; lia).
  split; [exact H |].
  exact (proj1 (C8_filter_map_contract haha_on_two (arr [1; 2; 3]%Z)
                  (nums [1; 2; 3]%Z) 4 4 tt eq_refl H H)).
Defined.

Lemma C9_curry_contract_witness :
  (fn_length add2 <= length [3; 4]%Z /\ curry add2 [3; 4]%Z = Result 7%Z)
  /\ (length [3%Z] < fn_length add2
      /\ curry add2 [3%Z] = Partial [3%Z]
      /\ call_curried add2 (curry add2 [3%Z]) [4%Z] = Result 7%Z
      /\ call_curried add2 (curry add2 [3%Z]) [10%Z] = Result 13%Z).
Proof.
  assert (H2 : fn_length add2 <= length [3; 4]%Z) by (simpl; lia).
  assert (H1 : length [3%Z] < fn_length add2) by (simpl; lia).
  split.
  - split; [exact H2 |].
    exact (proj1 (C9_curry_contract Z Z add2 [3; 4]%Z) H2).
  - split; [exact H1 |].
    pose proof (proj2 (C9_curry_contract Z Z add2 [3%Z]) H1) as [Hp [_ [Hcall _]]].
    split; [exact Hp |].
    split; [apply (Hcall [4%Z]) | apply (Hcall [10%Z])]; simpl; lia.
Defined.

Lemma C10_eq_by_calls_pred_with_undefined_witness :
  length (nums [1%Z]) + 1 < 3
  /\ eq_by 3 (logging (VBool true)) (arr [1; 2; 3]%Z) (arr [5%Z]) []
     = Return false [[VNum 1; VNum 5]; [VNum 2; VUndefined]].
Proof.
  assert (H : length (nums [1%Z]) + 1 < 3) by (simpl; lia).
  split; [exact H |].
  exact (C10_eq_by_calls_pred_with_undefined (logging (VBool true))
           (arr [1; 2; 3]%Z) (arr [5%Z]) (nums [1%Z])
           (VNum 2) (nums [3%Z]) (nums [5%Z]) 3 [] _ _ eq_refl eq_refl eq_refl H).
Defined.

(** * Runs of the other combinators *)

Lemma map_contract_witness :
  length (nums [1; 2; 3]%Z) < 4
  /\ collect_of (W := unit) 4 (map (pure_fn plus_one) (arr [1; 2; 3]%Z)) tt
     = Return (nums [2; 3; 4]%Z) tt.
Proof.
  assert (H : length (nums [1; 2; 3]%Z) < 4) by (simpl; lia).
  split; [exact H |].
  exact (proj1 (map_contract (pure_fn plus_one) (arr [1; 2; 3]%Z) (nums [1; 2; 3]%Z)
                  4 tt eq_refl H)).
Defined.

Lemma filter_contract_witness :
  length (nums [1; 2; 3]%Z) < 4
  /\ collect_of (W := unit) 4 (filter 4 (pure_fn is_two) (arr [1; 2; 3]%Z)) tt
     = Return (nums [2%Z]) tt.
Proof.
  assert (H : length (nums [1; 2; 3]%Z) < 4) by (simpl; lia).
  split; [exact H |].
  exact (proj1 (filter_contract (pure_fn is_two) (arr [1; 2; 3]%Z) (nums [1; 2; 3]%Z)
                  4 4 tt eq_refl H H)).
Defined.

Lemma all_contract_witness :
  length (nums [1; 2; 3]%Z) < 4
  /\ all 4 (logging (VBool false)) (arr [1; 2; 3]%Z) [] = Return false [[VNum 1]].
Proof.
  assert (H : length (nums [1; 2; 3]%Z) < 4) by (simpl; lia).
  split; [exact H |].
  exact (proj1 (all_contract (logging (VBool false)) (arr [1; 2; 3]%Z) (nums [1; 2; 3]%Z)
                  4 [] eq_refl H)).
Defined.

Lemma some_contract_witness :
  length (nums [1; 2; 3]%Z) < 4
  /\ some 4 (logging (VBool true)) (arr [1; 2; 3]%Z) [] = Return true [[VNum 1]].
Proof.
  assert (H : length (nums [1; 2; 3]%Z) < 4) by (simpl; lia).
  split; [exact H |].
  exact (proj1 (some_contract (logging (VBool true)) (arr [1; 2; 3]%Z) (nums [1; 2; 3]%Z)
                  4 [] eq_refl H)).
Defined.

Lemma chain_contract_witness :
  length (nums [1%Z]) + length (nums [2%Z]) < 3
  /\ collect_of (W := unit) 3 (chain (arr [1%Z]) (arr [2%Z])) tt = Return (nums [1; 2]%Z) tt.
Proof.
  assert (H : length (nums [1%Z]) + length (nums [2%Z]) < 3) by (simpl; lia).
  split; [exact H |].
  exact (chain_contract (arr [1%Z]) (arr [2%Z]) (nums [1%Z]) (nums [2%Z]) 3 tt
           eq_refl eq_refl H).
Defined.

Lemma collect_count_contract_witness :
  length (nums [1; 2; 3]%Z) < 4
  /\ count (W := unit) 4 (arr [1; 2; 3]%Z) tt = Return 3%Z tt.
Proof.
  assert (H : length (nums [1; 2; 3]%Z) < 4) by (simpl; lia).
  split; [exact H |].
  exact (proj2 (collect_count_contract (arr [1; 2; 3]%Z) (nums [1; 2; 3]%Z) 4 tt eq_refl H)).
Defined.

Lemma takeWhile_contract_witness :
  length (nums [1; 2; 3]%Z) < 4
  /\ collect_of 4 (takeWhile (logging (VBool false)) (arr [1; 2; 3]%Z)) []
     = Return [] [[VNum 1]].
Proof.
  assert (H : length (nums [1; 2; 3]%Z) < 4) by (simpl; lia).
  split; [exact H |].
  exact (proj1 (takeWhile_contract (logging (VBool false)) (arr [1; 2; 3]%Z)
                  (nums [1; 2; 3]%Z) 4 [] eq_refl H)).
Defined.

Lemma enumerate_contract_witness :
  length (nums [1; 2; 3]%Z) < 4
  /\ collect_of (W := unit) 4 (enumerate (arr [1; 2; 3]%Z)) tt
     = Return [VArr [VNum 1; VNum 0]; VArr [VNum 2; VNum 1]; VArr [VNum 3; VNum 2]] tt.
Proof.
  assert (H : length (nums [1; 2; 3]%Z) < 4) by (simpl; lia).
  split; [exact H |].
  exact (proj1 (enumerate_contract (arr [1; 2; 3]%Z) (nums [1; 2; 3]%Z) 4 tt eq_refl H)).
Defined.

Lemma find_contract_witness :
  length (nums [1; 2; 3]%Z) < 4
  /\ find (W := unit) 4 (pure_fn is_two) (arr [1; 2; 3]%Z) tt = Return (VNum 2) tt.
Proof.
  assert (H : length (nums [1; 2; 3]%Z) < 4) by (simpl; lia).
  split; [exact H |].
  exact (proj1 (find_contract (pure_fn is_two) (arr [1; 2; 3]%Z) (nums [1; 2; 3]%Z)
                  4 tt eq_refl H)).
Defined.

Lemma find_map_contract_witness :
  length (nums [1; 2; 3]%Z) < 4
  /\ find_map 4 haha_on_two (arr [1; 2; 3]%Z) tt = Return (VStr "haha") tt.
Proof.
  assert (H : length (nums [1; 2; 3]%Z) < 4) by (simpl; lia).
  split; [exact H |].
  exact (proj1 (find_map_contract haha_on_two (arr [1; 2; 3]%Z) (nums [1; 2; 3]%Z)
                  4 tt eq_refl H)).
Defined.



Lemma tap_contract_witness :
  length (nums [1; 2; 3]%Z) < 4
  /\ collect_of 4 (tap (logging VUndefined) (arr [1; 2; 3]%Z)) []
     = Return (nums [1; 2; 3]%Z) [[VNum 1]; [VNum 2]; [VNum 3]].
Proof.
  assert (H : length (nums [1; 2; 3]%Z) < 4) by (simpl; lia).
  split; [exact H |].
  exact (tap_contract (logging VUndefined) (arr [1; 2; 3]%Z) (nums [1; 2; 3]%Z)
           4 [] eq_refl H).
Defined.

Lemma nth_contract_witness :
  length (nums [1; 2; 3]%Z) < 4
  /\ (0 <= 1 < Z.of_nat (length (nums [1; 2; 3]%Z)))%Z
  /\ nth (W := unit) 4 1 (arr [1; 2; 3]%Z) tt = Return (VNum 2) tt.
Proof.
  assert (H : length (nums [1; 2; 3]%Z) < 4) by (simpl; lia).
  assert (Hi : (0 <= 1 < Z.of_nat (length (nums [1; 2; 3]%Z)))%Z) by (simpl; lia).
  split; [exact H | split; [exact Hi |]].
  exact (proj1 (nth_contract 1 (arr [1; 2; 3]%Z) (nums [1; 2; 3]%Z) 4 tt eq_refl H) Hi).
Defined.

Lemma fold_contract_witness :
  length (nums [1; 2; 3]%Z) < 4
  /\ fold (W := unit) 4 (pure_fn add) (VNum 0) (arr [1; 2; 3]%Z) tt = Return (VNum 6) tt.
Proof.
  assert (H : length (nums [1; 2; 3]%Z) < 4) by (simpl; lia).
  split; [exact H |].
  exact (proj1 (fold_contract (pure_fn add) (VNum 0) (arr [1; 2; 3]%Z) (nums [1; 2; 3]%Z)
                  4 tt eq_refl H)).
Defined.

Lemma scan_contract_witness :
  length (nums [1; 2; 3]%Z) < 4
  /\ collect_of (W := unit) 4 (scan (pure_fn add) (VNum 0) (arr [1; 2; 3]%Z)) tt
     = Return (nums [1; 3; 6]%Z) tt.
Proof.
  assert (H : length (nums [1; 2; 3]%Z) < 4) by (simpl; lia).
  split; [exact H |].
  exact (proj1 (scan_contract (pure_fn add) (VNum 0) (arr [1; 2; 3]%Z) (nums [1; 2; 3]%Z)
                  4 tt eq_refl H)).
Defined.

Lemma skip_contract_witness :
  length (nums [1; 2; 3]%Z) < 4
  /\ collect_of (W := unit) 4 (skip 4 2 (arr [1; 2; 3]%Z)) tt = Return (nums [3%Z]) tt.
Proof.
  assert (H : length (nums [1; 2; 3]%Z) < 4) by (simpl; lia).
  split; [exact H |].
  exact (proj1 (skip_contract 2 (arr [1; 2; 3]%Z) (nums [1; 2; 3]%Z) 4 4 tt eq_refl H H)).
Defined.

Lemma take_skip_partition_witness :
  length (nums [1; 2; 3]%Z) < 4
  /\ exists taken skipped,
       collect_of (W := unit) 4 (take 2 (arr [1; 2; 3]%Z)) tt = Return taken tt
       /\ collect_of 4 (skip 4 2 (arr [1; 2; 3]%Z)) tt = Return skipped tt
       /\ taken ++ skipped = nums [1; 2; 3]%Z.
Proof.
  assert (H : length (nums [1; 2; 3]%Z) < 4) by (simpl; lia).
  split; [exact H |].
  exact (take_skip_partition 2 (nums [1; 2; 3]%Z) 4 4 tt H H).
Defined.

Lemma cycle_contract_witness :
  nums [1; 2; 3]%Z <> [] /\ length (nums [1; 2; 3]%Z) < 4 /\ (0 <= 10)%Z
  /\ Z.to_nat 10 < 11
  /\ (c <- cycle 4 (arr [1; 2; 3]%Z) ;; collect_of (W := unit) 11 (take 10 (Gen c))) tt
     = Return (nums [1; 2; 3; 1; 2; 3; 1; 2; 3; 1]%Z) tt.
Proof.
  assert (Hne : nums [1; 2; 3]%Z <> []) by discriminate.
  assert (H : length (nums [1; 2; 3]%Z) < 4) by (simpl; lia).
  assert (Hn : (0 <= 10)%Z) by lia.
  assert (Hf : Z.to_nat 10 < 11) by lia.
  split; [exact Hne | split; [exact H | split; [exact Hn | split; [exact Hf |]]]].
  exact (proj1 (proj2 (proj2 (cycle_contract 10 (arr [1; 2; 3]%Z) (nums [1; 2; 3]%Z)
                                4 11 tt eq_refl Hne H Hn Hf)))).
Defined.

Lemma repeat_contract_witness :
  1 < 2 /\ (0 <= 3)%Z /\ Z.to_nat 3 < 4
  /\ (c <- repeat 2 (VNum 1) ;; collect_of (W := unit) 4 (take 3 (Gen c))) tt
     = Return (nums [1; 1; 1]%Z) tt.
Proof.
  assert (H : 1 < 2) by lia.
  assert (Hn : (0 <= 3)%Z) by lia.
  assert (Hf : Z.to_nat 3 < 4) by lia.
  split; [exact H | split; [exact Hn | split; [exact Hf |]]].
  exact (proj2 (repeat_contract (VNum 1) 3 2 4 tt H Hn Hf)).
Defined.

Lemma lazy_construction_witness :
  is_lazy (call_map (logging VNull) (Gen (once (VNum 1)))) = true
  /\ (forall a, In a (sequence_arguments (call_map (logging VNull) (Gen (once (VNum 1))))) ->
                is_sequence a = true)
  /\ exists it,
       invoke 0 (call_map (logging VNull) (Gen (once (VNum 1)))) [] = Return (RIter it) [].
Proof.
  assert (H : forall a,
             In a (sequence_arguments (call_map (logging VNull) (Gen (once (VNum 1))))) ->
             is_sequence a = true).
  { intros a [<- | []]. reflexivity. }
  split; [reflexivity | split; [exact H |]].
  exact (lazy_construction 0 (call_map (logging VNull) (Gen (once (VNum 1)))) []
           eq_refl H).
Defined.

Lemma map_fusion_witness :
  length (nums [1; 2; 3]%Z) < 4
  /\ collect_of (W := unit) 4
       (m <- map (pure_fn plus_one) (arr [1; 2; 3]%Z) ;; map (pure_fn twice) (Gen m)) tt
     = Return [VArr (nums [2; 2]%Z); VArr (nums [3; 3]%Z); VArr (nums [4; 4]%Z)] tt.
Proof.
  assert (H : length (nums [1; 2; 3]%Z) < 4) by (simpl; lia).
  split; [exact H |].
  exact (map_fusion plus_one twice (arr [1; 2; 3]%Z) (nums [1; 2; 3]%Z) 4 tt eq_refl H).
Defined.

Lemma take_map_is_lazy_witness :
  (0 <= 1)%Z /\ length (nums [1; 2; 3]%Z) < 4
  /\ (m <- map (logging VNull) (arr [1; 2; 3]%Z) ;; collect_of 4 (take 1 (Gen m))) []
     = Return [VNull] [[VNum 1]; [VNum 2]].
Proof.
  assert (Hn : (0 <= 1)%Z) by lia.
  assert (H : length (nums [1; 2; 3]%Z) < 4) by (simpl; lia).
  split; [exact Hn | split; [exact H |]].
  exact (take_map_is_lazy 1 (logging VNull) (arr [1; 2; 3]%Z) (nums [1; 2; 3]%Z) 4 []
           Hn eq_refl H).
Defined.

Lemma curry_groups_witness :
  [[1%Z]; [2%Z]] <> []
  /\ (forall g, In g [[1%Z]; [2%Z]] -> g <> [])
  /\ length (List.concat [[1%Z]; [2%Z]]) = fn_length add2
  /\ call_each add2 (Partial []) [[1%Z]; [2%Z]] = Result 3%Z.
Proof.
  assert (Hne : [[1%Z]; [2%Z]] <> []) by discriminate.
  assert (Hall : forall g, In g [[1%Z]; [2%Z]] -> g <> []).
  { intros g [<- | [<- | []]]; discriminate. }
  assert (Hlen : length (List.concat [[1%Z]; [2%Z]]) = fn_length add2) by reflexivity.
  split; [exact Hne | split; [exact Hall | split; [exact Hlen |]]].
  exact (proj1 (curry_groups Z Z add2 [[1%Z]; [2%Z]] Hne Hall Hlen)).
Defined.
